(** * Mava: the N-step transition adder and the parameter client

    A shallow embedding of [mava/adders/reverb/transition.py]
    ([ParallelNStepTransitionAdder], its [signature] and [_broadcast_specs])
    and of the mock parameter server of
    [tests/jax/core_system_components/parameter_client_test.py], together
    with the properties the specification states about them and further
    properties of the code.

    Conventions of the embedding.
    - Python dictionaries keyed by agent or parameter name are [gmap string _].
    - numpy arrays are mutable objects: they live in a heap, and a value of
      the program is either a reference to an array or an immutable numpy
      scalar. The in-place operators [operator.imul] and [operator.iadd]
      update the heap cell of an array and leave a scalar alone.
    - Rewards and discounts are 0-d floating arrays of dtype float32 or
      float64. The item of an array is an IEEE 754 value ([spec_float] of
      the Standard Library: a zero, an infinity, NaN or a finite number);
      every product and sum is computed in the dtype numpy computes it in
      and rounded to nearest even, and an in-place operator converts the
      result to the dtype of the array it writes to.
    - Exceptions are values of [exn]; a method is a function from the state
      before the call to either an exception or the state after it.
    - A spec ([acme.specs.Array]) is a record of a shape, a dtype and a name;
      the model of [signature] takes the dtypes of numpy and [np.result_type]
      as parameters. *)

From Stdlib Require Import QArith Qcanon Ascii String SpecFloat.
From stdpp Require Import gmap strings list fin_maps.

Open Scope Qc_scope.

(** ** Exceptions and the heap monad *)

Inductive exn := IndexError | ValueError | KeyError | TypeError | NotImplementedError.

Inductive result (A : Type) :=
| Ok (a : A)
| Raise (e : exn).
Arguments Ok {A} a.
Arguments Raise {A} e.

Global Instance result_ret : MRet result := λ A a, Ok a.

Global Instance result_bind : MBind result := λ A B k m,
  match m with
  | Ok a => k a
  | Raise e => Raise e
  end.

(** ** numpy *)

Module np.

Inductive dtype := float32 | float64.

(** The binary formats: the bits of the mantissa and the exponent of the
    infinities. *)
Definition prec (d : dtype) : Z :=
  match d with float32 => 24%Z | float64 => 53%Z end.

Definition emax (d : dtype) : Z :=
  match d with float32 => 128%Z | float64 => 1024%Z end.

(** A Python float: a binary64 value. *)
Abbreviation py_float := spec_float.

(** A 0-d array or a numpy scalar: its dtype and its item. *)
Record ndarray := mk_ndarray { dtype_of : dtype; item : spec_float }.

Definition loc := positive.

(** A program value of numeric kind: a reference to a (mutable) array, or
    an (immutable) numpy scalar such as [np.float32(0.9)]. *)
Inductive value :=
| Arr (l : loc)
| Scalar (x : ndarray).

(** [np.result_type] on the floating dtypes. *)
Definition result_type (a b : dtype) : dtype :=
  match a, b with
  | float32, float32 => float32
  | _, _ => float64
  end.

(** The conversion of a value to the format of [d]: a finite value is
    rounded to nearest even (to an infinity when it is too large); zeros,
    infinities and NaN are kept. *)
Definition round_to (d : dtype) (x : spec_float) : spec_float :=
  match x with
  | S754_finite s m e => binary_round (prec d) (emax d) s m e
  | _ => x
  end.

(** [x.astype(d)]; nothing is converted when [x] has the dtype [d]. *)
Definition astype (d : dtype) (x : ndarray) : ndarray :=
  match dtype_of x, d with
  | float32, float32 | float64, float64 => x
  | _, _ => mk_ndarray d (round_to d (item x))
  end.

(** [np.multiply(x, y)] and [np.add(x, y)] on 0-d operands: both are
    converted to [np.result_type] of their dtypes and the operation is
    rounded in that format. *)
Definition multiply (x y : ndarray) : ndarray :=
  let d := result_type (dtype_of x) (dtype_of y) in
  mk_ndarray d (SFmul (prec d) (emax d) (item (astype d x)) (item (astype d y))).

Definition add (x y : ndarray) : ndarray :=
  let d := result_type (dtype_of x) (dtype_of y) in
  mk_ndarray d (SFadd (prec d) (emax d) (item (astype d x)) (item (astype d y))).

(** [np.multiply(x, y, out=x)] and [np.add(x, y, out=x)]: what [x *= y]
    and [x += y] leave in the array [x], which keeps its dtype. *)
Definition multiply_into (x y : ndarray) : ndarray := astype (dtype_of x) (multiply x y).

Definition add_into (x y : ndarray) : ndarray := astype (dtype_of x) (add x y).

(** [np.float32(x)] on a Python float. *)
Definition np_float32 (x : py_float) : ndarray := mk_ndarray float32 (round_to float32 x).

(** [np.dtype("float32").type(0.0)] *)
Definition float32_zero : ndarray := mk_ndarray float32 (S754_zero false).



(** The rational a finite value or a zero stands for, in lowest terms. *)
Definition to_Q (x : spec_float) : option Q :=
  match x with
  | S754_zero _ => Some (0 # 1)
  | S754_finite s m e =>
      let n := inject_Z (cond_Zopp s (Zpos m)) in
      Some (Qred (match e with
                  | Z0 => n
                  | Zpos k => n * inject_Z (2 ^ Zpos k)
                  | Zneg k => n / inject_Z (2 ^ Zpos k)
                  end))
  | _ => None
  end.

End np.

Export np.

Global Instance ndarray_inhabited : Inhabited ndarray := populate float32_zero.

Abbreviation heap := (gmap loc ndarray).

(** Computations on the heap that may raise. *)
Definition io (A : Type) : Type := heap → result (A * heap).

Global Instance io_ret : MRet io := λ A a h, Ok (a, h).

Global Instance io_bind : MBind io := λ A B k m h,
  match m h with
  | Ok (a, h') => k a h'
  | Raise e => Raise e
  end.

Definition raise {A} (e : exn) : io A := λ _, Raise e.

Module npops.

(** The content of a value: the cell of an array, or the scalar itself. A
    reference held by a live object is always allocated; the default is
    never read from a well-formed heap. *)
Definition deref (h : heap) (v : value) : ndarray :=
  match v with
  | Arr l => default float32_zero (h !! l)
  | Scalar x => x
  end.

Definition read (v : value) : io ndarray := λ h, Ok (deref h v, h).

(** Allocation of a new array. *)
Definition alloc (x : ndarray) : io value :=
  λ h, let l := fresh (dom h) in Ok (Arr l, <[l := x]> h).

(** A write into the cell of an array. *)
Definition update (l : loc) (f : ndarray → ndarray) : io () :=
  λ h, Ok ((), alter f l h).

(** [np.copy(v)]: a new array with the dtype and content of [v]. *)
Definition copy (v : value) : io value :=
  x ← read v; alloc x.

(** [np.copy(np.broadcast_to(r, np.broadcast(r, d).shape))] on 0-d
    operands: the broadcast shape is [()], the dtype is that of [r]. *)
Definition copy_broadcast (r d : value) : io value :=
  x ← read r; alloc x.

(** [a * b]: a new scalar of the promoted dtype. *)
Definition mul (a b : value) : io value :=
  x ← read a; y ← read b;
  mret (Scalar (multiply x y)).

(** [operator.imul(a, b)], that is [a *= b]. On an array the product is
    written into the array (which keeps its dtype) and the array is
    returned; on a scalar a new scalar is returned. *)
Definition imul (a b : value) : io value :=
  y ← read b;
  match a with
  | Arr l => update l (λ x, multiply_into x y);; mret (Arr l)
  | Scalar x => mret (Scalar (multiply x y))
  end.

(** [operator.iadd(a, b)], that is [a += b]. *)
Definition iadd (a b : value) : io value :=
  y ← read b;
  match a with
  | Arr l => update l (λ x, add_into x y);; mret (Arr l)
  | Scalar x => mret (Scalar (add x y))
  end.

(** [np.zeros_like(v)] *)
Definition zeros_like (v : value) : io value :=
  x ← read v; alloc (mk_ndarray (dtype_of x) (S754_zero false)).

End npops.

(** ** tree (dm-tree) and acme's tree_utils, on one-level dictionaries *)

Module tree.

(** [tree.assert_same_structure]: two dictionaries have the same structure
    when they have the same keys. *)
Definition assert_same_structure {A B} (m1 : gmap string A) (m2 : gmap string B) : io () :=
  if bool_decide (dom m1 = dom m2) then mret () else raise ValueError.

(** The traversal behind [tree.map_structure]: [f] is applied to every
    leaf, one after the other, and the results are packed under the same
    keys. *)
Definition traverse {A B} (f : A → io B) (m : gmap string A) : io (gmap string B) :=
  map_fold (λ k x acc, out ← acc; y ← f x; mret (<[k := y]> out)) (mret ∅) m.

(** [tree.map_structure(f, m)] *)
Definition map_structure {A B} (f : A → io B) (m : gmap string A) : io (gmap string B) :=
  traverse f m.

(** [tree.map_structure(f, m1, m2)] *)
Definition map_structure2 {A B C} (f : A → B → io C)
    (m1 : gmap string A) (m2 : gmap string B) : io (gmap string C) :=
  assert_same_structure m1 m2 ;;
  traverse (λ p, f p.1 p.2) (map_zip m1 m2).

(** [tree.map_structure(f, m1, m2, m3)] *)
Definition map_structure3 {A B C D} (f : A → B → C → io D)
    (m1 : gmap string A) (m2 : gmap string B) (m3 : gmap string C) : io (gmap string D) :=
  assert_same_structure m1 m2 ;;
  assert_same_structure m1 m3 ;;
  traverse (λ p, f p.1.1 p.1.2 p.2) (map_zip (map_zip m1 m2) m3).

End tree.

Module tree_utils.

(** [tree_utils.broadcast_structures(a, b, c)] when the three arguments are
    dictionaries: the first is the reference tree, the others are checked
    against it, and the arguments are returned unchanged. *)
Definition broadcast_structures {A B C}
    (a : gmap string A) (b : gmap string B) (c : gmap string C)
  : io (gmap string A * gmap string B * gmap string C) :=
  tree.assert_same_structure b a ;;
  tree.assert_same_structure c a ;;
  mret (a, b, c).

End tree_utils.

(** [not d] for a dictionary [d]. *)
Definition is_empty {A} (m : gmap string A) : bool := bool_decide (dom m = ∅).

(** ** mava.adders.reverb.base *)

Module base.
Section payload.
(** Observations, actions and extras are opaque to the adder. *)
Context (Obs Act Ext : Type).

(** [base.Step] *)
Record Step := mk_Step {
  observations : gmap string Obs;
  actions : gmap string Act;
  rewards : gmap string value;
  discounts : gmap string value;
  start_of_episode : bool;
  extras : gmap string Ext;
}.

(** The transition handed to the replay writer: the tuple built at the end
    of [_write]; the sixth component is present when the extras are. The
    writer serialises the arrays of the tuple when [append] is called, so
    the record holds their content at that moment. *)
Record Transition := mk_Transition {
  t_observations : gmap string Obs;
  t_actions : gmap string Act;
  t_n_step_return : gmap string ndarray;
  t_total_discount : gmap string ndarray;
  t_next_observations : gmap string Obs;
  t_extras : option (gmap string Ext);
}.

(** The calls made on the replay writer. *)
Inductive writer_call :=
| append (transition : Transition)
| create_item (table : string) (num_timesteps : nat) (priority : Qc).

Definition PriorityFn : Type := list Step → heap → Qc.

(** The state of [base.ReverbParallelAdder]: the step buffer (a deque of
    [buffer_size] steps), the dangling observation, the priority functions
    and the calls made on the writer so far. *)
Record ReverbParallelAdder := mk_ReverbParallelAdder {
  _buffer : list Step;
  _buffer_size : Z;
  _max_sequence_length : Z;
  _priority_fns : list (string * PriorityFn);
  _next_observations : gmap string Obs;
  _writer : list writer_call;
}.

(** Modelled from the spec: the constructor of [base.ReverbParallelAdder],
    which is not among the sources. It fails with [ValueError] if the
    configured N-step horizon is < 1; otherwise the Step Buffer holds at
    most [buffer_size] steps and starts empty, and nothing has been
    written. *)
Definition __init__ (buffer_size max_sequence_length : Z)
    (priority_fns : list (string * PriorityFn)) : result ReverbParallelAdder :=
  if bool_decide (buffer_size < 1)%Z then Raise ValueError
  else Ok {| _buffer := [];
             _buffer_size := buffer_size;
             _max_sequence_length := max_sequence_length;
             _priority_fns := priority_fns;
             _next_observations := ∅;
             _writer := [] |}.

(** [self._buffer.popleft()] *)
Definition popleft (self : ReverbParallelAdder) : result ReverbParallelAdder :=
  match _buffer self with
  | [] => Raise IndexError
  | _ :: rest =>
      Ok {| _buffer := rest;
            _buffer_size := _buffer_size self;
            _max_sequence_length := _max_sequence_length self;
            _priority_fns := _priority_fns self;
            _next_observations := _next_observations self;
            _writer := _writer self |}
  end.

(** [self._writer.append(..)] and [self._writer.create_item(..)] *)
Definition writer_calls (calls : list writer_call) (self : ReverbParallelAdder)
  : ReverbParallelAdder :=
  {| _buffer := _buffer self;
     _buffer_size := _buffer_size self;
     _max_sequence_length := _max_sequence_length self;
     _priority_fns := _priority_fns self;
     _next_observations := _next_observations self;
     _writer := _writer self ++ calls |}.

(** [step._replace(observations=obs)] *)
Definition _replace_observations (step : Step) (obs : gmap string Obs) : Step :=
  {| observations := obs;
     actions := actions step;
     rewards := rewards step;
     discounts := discounts step;
     start_of_episode := start_of_episode step;
     extras := extras step |}.

End payload.

Arguments observations {Obs Act Ext} _.
Arguments actions {Obs Act Ext} _.
Arguments rewards {Obs Act Ext} _.
Arguments discounts {Obs Act Ext} _.
Arguments start_of_episode {Obs Act Ext} _.
Arguments extras {Obs Act Ext} _.
Arguments mk_Step {Obs Act Ext} _ _ _ _ _ _.
Arguments t_observations {Obs Act Ext} _.
Arguments t_actions {Obs Act Ext} _.
Arguments t_n_step_return {Obs Act Ext} _.
Arguments t_total_discount {Obs Act Ext} _.
Arguments t_next_observations {Obs Act Ext} _.
Arguments t_extras {Obs Act Ext} _.
Arguments mk_Transition {Obs Act Ext} _ _ _ _ _ _.
Arguments append {Obs Act Ext} _.
Arguments create_item {Obs Act Ext} _ _ _.
Arguments _buffer {Obs Act Ext} _.
Arguments _buffer_size {Obs Act Ext} _.
Arguments _max_sequence_length {Obs Act Ext} _.
Arguments _priority_fns {Obs Act Ext} _.
Arguments _next_observations {Obs Act Ext} _.
Arguments _writer {Obs Act Ext} _.
Arguments mk_ReverbParallelAdder {Obs Act Ext} _ _ _ _ _ _.
Arguments __init__ {Obs Act Ext} _ _ _.
Arguments popleft {Obs Act Ext} _.
Arguments writer_calls {Obs Act Ext} _ _.
Arguments _replace_observations {Obs Act Ext} _ _.

End base.

(** ** mava.adders.reverb.utils *)

Module utils.
Section payload.
Context {Obs Act Ext : Type}.
(** [np.zeros_like] on the payload of actions and of extras. *)
Context (zeros_like_act : Act → Act) (zeros_like_ext : Ext → Ext).

(** Modelled from the spec: [utils.final_step_like], which is not among the
    sources: a synthetic final step carrying only the arrival observations
    with zero-valued other fields (of the shapes and dtypes of the given
    step). *)
Definition final_step_like (step : base.Step Obs Act Ext)
    (next_observations : gmap string Obs) : io (base.Step Obs Act Ext) :=
  zero_rewards ← tree.map_structure npops.zeros_like (base.rewards step);
  zero_discounts ← tree.map_structure npops.zeros_like (base.discounts step);
  mret (base.mk_Step next_observations
          (zeros_like_act <$> base.actions step)
          zero_rewards zero_discounts false
          (zeros_like_ext <$> base.extras step)).

(** Modelled from the spec: [utils.calculate_priorities], which is not among
    the sources: one priority per output table, produced by the configured
    priority function applied to the finalized step sequence. *)
Definition calculate_priorities (priority_fns : list (string * base.PriorityFn Obs Act Ext))
    (steps : list (base.Step Obs Act Ext)) : io (list (string * Qc)) :=
  λ h, Ok (map (λ tf, (tf.1, tf.2 steps h)) priority_fns, h).

End payload.
End utils.

(** ** mava.adders.reverb.transition *)

Module transition.
Section payload.
Context {Obs Act Ext : Type}.
Context (zeros_like_act : Act → Act) (zeros_like_ext : Ext → Ext).

Local Abbreviation Step := (base.Step Obs Act Ext).
Local Abbreviation Transition := (base.Transition Obs Act Ext).

(** The state of a [ParallelNStepTransitionAdder]. *)
Record ParallelNStepTransitionAdder := mk_Adder {
  _discount : ndarray;
  _discounts : gmap string value;
  _final_step_placeholder : option Step;
  super : base.ReverbParallelAdder Obs Act Ext;
}.

(** [ParallelNStepTransitionAdder.__init__(client, n_step, discount,
    priority_fns)]. The replay client is represented by the calls made on
    its writer. *)
Definition __init__ (n_step : Z) (discount : py_float)
    (priority_fns : list (string * base.PriorityFn Obs Act Ext))
  : result ParallelNStepTransitionAdder :=
  let _discount := np_float32 discount in
  let _final_step_placeholder := None in
  match base.__init__ n_step 1 priority_fns with
  | Ok super => Ok (mk_Adder _discount ∅ _final_step_placeholder super)
  | Raise e => Raise e
  end.

(** The rewards of a step, after the fix for an empty rewards dict. *)
Definition rewards_or_zeros (step : Step) : gmap string value :=
  if is_empty (base.rewards step)
  then (λ _, Scalar float32_zero) <$> base.discounts step
  else base.rewards step.

(** The body of the loop of [_write] over the steps after the first. The
    loop rebinds [total_discount]; [n_step_return] and [self_discount] are
    those of the enclosing call. *)
Definition _write_loop_body (n_step_return self_discount : gmap string value)
    (total_discount : gmap string value) (step : Step) : io (gmap string value) :=
  let rewards := rewards_or_zeros step in
  '(step_discount, step_reward, total_discount) ←
    tree_utils.broadcast_structures (base.discounts step) rewards total_discount;
  (* Equivalent to: `total_discount *= self._discount`. *)
  tree.map_structure2 npops.imul total_discount self_discount;;
  (* Equivalent to: `n_step_return += step.reward * total_discount`. *)
  tree.map_structure3
    (λ nsr sr td, t ← npops.mul sr td; npops.iadd nsr t)
    n_step_return step_reward total_discount;;
  (* Equivalent to: `total_discount *= step.discount`. *)
  tree.map_structure2 npops.imul total_discount step_discount;;
  mret total_discount.

(** [for step in steps: total_discount = body(total_discount, step)] *)
Fixpoint for_each_step (body : gmap string value → Step → io (gmap string value))
    (steps : list Step) (total_discount : gmap string value) : io (gmap string value) :=
  match steps with
  | [] => mret total_discount
  | step :: steps' =>
      total_discount ← body total_discount step;
      for_each_step body steps' total_discount
  end.

(** The content of the arrays of a structure, as the writer serialises it. *)
Definition serialise (m : gmap string value) : io (gmap string ndarray) :=
  λ h, Ok (npops.deref h <$> m, h).

(** [ParallelNStepTransitionAdder._write], for an implementation
    [calculate_priorities] of [utils.calculate_priorities], which is not
    among the sources. *)
Definition _write_with
    (calculate_priorities :
       list (string * base.PriorityFn Obs Act Ext) → list Step → io (list (string * Qc)))
    (self : ParallelNStepTransitionAdder) : io ParallelNStepTransitionAdder :=
  match base._buffer (super self) with
  | [] => raise IndexError
  | s0 :: later =>
      (* Form the n-step transition given the steps. *)
      let observations := base.observations s0 in
      let actions := base.actions s0 in
      let extras := base.extras s0 in
      let next_observations := base._next_observations (super self) in
      let _discounts := (λ _, Scalar (_discount self)) <$> observations in
      let rewards := rewards_or_zeros s0 in
      '(n_step_return, total_discount, self_discount) ←
        tree_utils.broadcast_structures rewards (base.discounts s0) _discounts;
      (* Copy total_discount, so that accumulating into it doesn't affect
         _buffer[0].discount. *)
      total_discount ← tree.map_structure npops.copy total_discount;
      (* Also copy, to avoid accumulating into _buffer[0].reward. *)
      n_step_return ←
        tree.map_structure2 npops.copy_broadcast n_step_return total_discount;
      total_discount ←
        for_each_step (_write_loop_body n_step_return self_discount) later total_discount;
      n_step_return_items ← serialise n_step_return;
      total_discount_items ← serialise total_discount;
      let transition :=
        base.mk_Transition observations actions n_step_return_items
          total_discount_items next_observations
          (if is_empty extras then None else Some extras) in
      (* Create a list of steps. *)
      placeholder ←
        match _final_step_placeholder self with
        | None => utils.final_step_like zeros_like_act zeros_like_ext s0 next_observations
        | Some placeholder => mret placeholder
        end;
      let final_step := base._replace_observations placeholder next_observations in
      let steps := base._buffer (super self) ++ [final_step] in
      (* Calculate the priority for this transition. *)
      table_priorities ← calculate_priorities (base._priority_fns (super self)) steps;
      (* Insert the transition into replay along with its priority. *)
      let calls :=
        base.append transition ::
        map (λ tp, base.create_item tp.1 1 tp.2) table_priorities in
      mret (mk_Adder (_discount self) _discounts (Some placeholder)
              (base.writer_calls calls (super self)))
  end.

(** [ParallelNStepTransitionAdder._write] *)
Definition _write : ParallelNStepTransitionAdder → io ParallelNStepTransitionAdder :=
  _write_with utils.calculate_priorities.

(** [self._buffer.popleft()] on the adder. *)
Definition popleft (self : ParallelNStepTransitionAdder) : io ParallelNStepTransitionAdder :=
  match base.popleft (super self) with
  | Ok super' =>
      mret (mk_Adder (_discount self) (_discounts self) (_final_step_placeholder self) super')
  | Raise e => raise e
  end.

(** [while self._buffer: self._write(); self._buffer.popleft()]. Every
    iteration removes one step, so the length of the buffer bounds the
    number of iterations: [fuel] is that length. *)
Fixpoint _write_last_loop (fuel : nat) (self : ParallelNStepTransitionAdder)
  : io ParallelNStepTransitionAdder :=
  match base._buffer (super self), fuel with
  | [], _ => mret self
  | _ :: _, O => mret self
  | _ :: _, S fuel' =>
      self ← _write self;
      self ← popleft self;
      _write_last_loop fuel' self
  end.

(** [ParallelNStepTransitionAdder._write_last] *)
Definition _write_last (self : ParallelNStepTransitionAdder) : io ParallelNStepTransitionAdder :=
  (* Drain the buffer until there are no transitions. *)
  self ← popleft self;
  _write_last_loop (length (base._buffer (super self))) self.

End payload.

Arguments ParallelNStepTransitionAdder : clear implicits.
Arguments mk_Adder {Obs Act Ext} _ _ _ _.
Arguments _discount {Obs Act Ext} _.
Arguments _discounts {Obs Act Ext} _.
Arguments _final_step_placeholder {Obs Act Ext} _.
Arguments super {Obs Act Ext} _.

End transition.


(** ** Well-formed windows and the transition a window stands for *)

Section adder_specification.
Import transition.
Context {Obs Act Ext : Type}.
Local Abbreviation Step := (base.Step Obs Act Ext).
Local Abbreviation Transition := (base.Transition Obs Act Ext).

(** A reference to an array is allocated; a scalar needs no cell. *)
Definition value_allocated (h : heap) (v : value) : Prop :=
  match v with
  | Arr l => is_Some (h !! l)
  | Scalar _ => True
  end.

Definition allocated (h : heap) (m : gmap string value) : Prop :=
  map_Forall (λ _ v, value_allocated h v) m.

(** A step of the agents [agents]: its discounts and its rewards (after
    the fix for an empty rewards dict) are keyed by these agents, and the
    arrays it refers to are allocated. *)
Definition step_ok (h : heap) (agents : gset string) (s : Step) : Prop :=
  dom (base.discounts s) = agents ∧ dom (rewards_or_zeros s) = agents ∧
  allocated h (base.rewards s) ∧ allocated h (base.discounts s).

(** A window [_write] accepts: it has a first step, whose observations are
    keyed by the agents of its discounts, and all its steps are steps of
    these agents. *)
Definition window_ok (h : heap) (window : list Step) : Prop :=
  match window with
  | [] => False
  | s0 :: _ =>
      dom (base.observations s0) = dom (base.discounts s0) ∧
      Forall (step_ok h (dom (base.discounts s0))) window
  end.

(** The reward and the discount of agent [a] at step [s]. *)
Definition reward_at (h : heap) (a : string) (s : Step) : ndarray :=
  npops.deref h (default (Scalar float32_zero) (rewards_or_zeros s !! a)).

Definition discount_at (h : heap) (a : string) (s : Step) : ndarray :=
  npops.deref h (default (Scalar float32_zero) (base.discounts s !! a)).

(** One iteration of the loop of [_write] on the accumulators
    [(n_step_return, total_discount)] of agent [a]:
    [total_discount *= g], then [n_step_return += reward * total_discount],
    then [total_discount *= discount]. *)
Definition acc_step (g : ndarray) (h : heap) (a : string) (acc : ndarray * ndarray) (s : Step)
  : ndarray * ndarray :=
  let td1 := multiply_into acc.2 g in
  (add_into acc.1 (multiply (reward_at h a s) td1),
   multiply_into td1 (discount_at h a s)).

Definition accumulate (g : ndarray) (h : heap) (a : string) (s0 : Step) (later : list Step)
  : ndarray * ndarray :=
  foldl (acc_step g h a) (reward_at h a s0, discount_at h a s0) later.

(** The transition of the window [s0 :: later]. *)
Definition expected_transition (g : ndarray) (next_observations : gmap string Obs)
    (h : heap) (s0 : Step) (later : list Step) : Transition :=
  base.mk_Transition (base.observations s0) (base.actions s0)
    (map_imap (λ a _, Some (accumulate g h a s0 later).1) (base.discounts s0))
    (map_imap (λ a _, Some (accumulate g h a s0 later).2) (base.discounts s0))
    next_observations
    (if is_empty (base.extras s0) then None else Some (base.extras s0)).

(** The transitions among the calls made on the writer, oldest first. *)
Definition transitions (calls : list (base.writer_call Obs Act Ext)) : list Transition :=
  omap (λ c, match c with base.append t => Some t | base.create_item _ _ _ => None end) calls.

(** The windows a drain goes through: every step with the steps after it. *)
Fixpoint windows (steps : list Step) : list (Step * list Step) :=
  match steps with
  | [] => []
  | s :: rest => (s, rest) :: windows rest
  end.

Definition drain_ok (h : heap) (steps : list Step) : Prop :=
  Forall (λ w, window_ok h (w.1 :: w.2)) (windows steps).

(** The state of the loop of [_write]: the arrays allocated before the
    call are as they were, and the accumulator arrays of every agent hold
    [acc]. *)
Definition loop_inv (h0 : heap) (Ltd Lnsr : gmap string loc)
    (acc : string → ndarray * ndarray) (h : heap) : Prop :=
  (∀ l, is_Some (h0 !! l) → h !! l = h0 !! l) ∧
  (∀ a l, Ltd !! a = Some l → h !! l = Some (acc a).2) ∧
  (∀ a l, Lnsr !! a = Some l → h !! l = Some (acc a).1).

End adder_specification.

(** The array an in-place operator writes to. *)
Definition tgt2 {X} (p : value * X) : loc :=
  match p.1 with Arr l => l | Scalar _ => 1%positive end.

Definition tgt3 {X Y} (p : value * X * Y) : loc :=
  match p.1.1 with Arr l => l | Scalar _ => 1%positive end.

Global Instance value_allocated_dec h v : Decision (value_allocated h v).
Proof. destruct v; simpl; apply _. Defined.

Global Instance allocated_dec h m : Decision (allocated h m).
Proof. unfold allocated. apply _. Defined.

Global Instance step_ok_dec {Obs Act Ext} h K (s : base.Step Obs Act Ext) :
  Decision (step_ok h K s).
Proof. unfold step_ok. apply _. Defined.

Global Instance window_ok_dec {Obs Act Ext} h (w : list (base.Step Obs Act Ext)) :
  Decision (window_ok h w).
Proof. destruct w; simpl; apply _. Defined.

Global Instance drain_ok_dec {Obs Act Ext} h (w : list (base.Step Obs Act Ext)) :
  Decision (drain_ok h w).
Proof. unfold drain_ok. apply _. Defined.

(** ** The closed forms of the specification, in exact arithmetic *)

Definition qsum (l : list Qc) : Qc := foldr Qcplus 0 l.
Definition qprod (l : list Qc) : Qc := foldr Qcmult 1 l.

(** discount(s0) * ... * discount(s_{i-1}) *)
Definition discount_product (ds : list Qc) (i : nat) : Qc := qprod (take i ds).

(** reward(s0) + sum over i = 1..k of
    g^i * discount(s0) * ... * discount(s_{i-1}) * reward(s_i) *)
Definition n_step_return_formula (g : Qc) (rs ds : list Qc) : Qc :=
  nth 0 rs 0 +
  qsum ((λ i, g ^ i * discount_product ds i * nth i rs 0) <$> seq 1 (length rs - 1)).

(** g^k * discount(s0) * ... * discount(s_k) *)
Definition total_discount_formula (g : Qc) (ds : list Qc) : Qc :=
  g ^ (length ds - 1) * qprod ds.


(** ** Sample buffers of a single agent *)

Module examples.
Import transition.

(** The Python float of a decimal literal: the binary64 value nearest to
    it (for a numerator and a denominator below 2^53). *)
Definition literal (q : Q) : py_float :=
  SFdiv 53 1024 (binary_normalize 53 1024 (Qnum q) 0 false)
                (binary_normalize 53 1024 (Zpos (Qden q)) 0 false).

(** [np.array(q, dtype=np.float32)] and [np.array(q, dtype=np.float64)] *)
Definition f32 (q : Q) : ndarray := np_float32 (literal q).
Definition f64 (q : Q) : ndarray := mk_ndarray float64 (literal q).

Definition zl : Z → Z := λ _, 0%Z.

(** A step of the single agent "a0": observation [o], the reward array at
    [r], the discount array at [d], extras {"h": e}. *)
Definition step (o : Z) (r d : positive) (e : Z) : base.Step Z Z Z :=
  base.mk_Step {["a0" := o]} {["a0" := 0%Z]} {["a0" := Arr r]} {["a0" := Arr d]}
    false {["h" := e]}.

(** A step of "a0" with an empty reward mapping. *)
Definition step_no_reward (o : Z) (d : positive) : base.Step Z Z Z :=
  base.mk_Step {["a0" := o]} {["a0" := 0%Z]} ∅ {["a0" := Arr d]} false ∅.

Definition adder (g : Q) (buffer : list (base.Step Z Z Z))
  : ParallelNStepTransitionAdder Z Z Z :=
  mk_Adder (np_float32 (literal g)) ∅ None
    (base.mk_ReverbParallelAdder buffer 3 1 [("priority_table", λ _ _, 1)]
       {["a0" := 42%Z]} []).

(** rewards [1,2,3] at 1..3, discounts [1,1,0] at 4..6 *)
Definition heap123 : heap :=
  list_to_map [(1%positive, f32 1); (2%positive, f32 2); (3%positive, f32 3);
               (4%positive, f32 1); (5%positive, f32 1); (6%positive, f32 0)].

Definition buffer123 : list (base.Step Z Z Z) :=
  [step 10 1 4 5; step 11 2 5 9; step 12 3 6 7].

(** one step: reward 1 at 1, discount 1/2 at 2 *)
Definition heap1 : heap := list_to_map [(1%positive, f32 1); (2%positive, f32 0.5)].
Definition buffer1 : list (base.Step Z Z Z) := [step 10 1 2 5].

(** two steps with an empty reward mapping, float64 discounts 1 and 1 *)
Definition heap64 : heap := list_to_map [(1%positive, f64 1); (2%positive, f64 1)].
Definition buffer64 : list (base.Step Z Z Z) := [step_no_reward 10 1; step_no_reward 11 2].

End examples.

(** ** tests/jax/core_system_components/parameter_client_test.py *)

Module params.

(** The leaves of a nested parameter (Python ints, or any other object). *)
Inductive leaf :=
| LInt (z : Z)
| LStr (s : string).

Inductive pdtype := int32 | pfloat32.

(** A numeric array and its items, in the order of the flattened array:
    32-bit integers, or binary32 values. *)
Inductive array :=
| Int32Array (items : list Z)
| Float32Array (items : list spec_float).

Definition a_dtype (a : array) : pdtype :=
  match a with
  | Int32Array _ => int32
  | Float32Array _ => pfloat32
  end.

Definition a_size (a : array) : nat :=
  match a with
  | Int32Array items => length items
  | Float32Array items => length items
  end.

(** The binary32 value nearest to an integer. *)
Definition float32_of_Z (z : Z) : spec_float := binary_normalize 24 128 z 0 false.

(** The runtime values a parameter takes in the test-suite: a numeric
    array, a nested mapping (group, then leaf key), a function (the lambda
    of [test__copy_not_implemented_error]) or a string. *)
Inductive param :=
| PArray (a : array)
| PNested (m : gmap string (gmap string leaf))
| PFunction
| PString (s : string).

(** 32-bit two's complement wrap-around. *)
Definition wrap32 (z : Z) : Z := ((z + 2 ^ 31) mod 2 ^ 32 - 2 ^ 31)%Z.

(** [a += 1] on an array: the sum wraps around in an int32 array, and is
    rounded to binary32 in a float32 array. *)
Definition array_incr (a : array) : array :=
  match a with
  | Int32Array items => Int32Array (map (λ z, wrap32 (z + 1)) items)
  | Float32Array items =>
      Float32Array (map (λ x, SFadd 24 128 x (float32_of_Z 1)) items)
  end.

(** [name.split(sep)[0]] *)
Fixpoint split_head (sep : Ascii.ascii) (name : string) : string :=
  match name with
  | EmptyString => EmptyString
  | String c rest => if Ascii.eqb c sep then EmptyString else String c (split_head sep rest)
  end.

End params.

Export params.

Module MockParameterServer.

(** The mock server: its store (a [SimpleNamespace] with the attributes
    the methods set) and the keys it treats as set parameters. *)
Record t := mk {
  parameters : gmap string param;
  _param_names : option (list string);
  get_parameters_attr : option (gmap string param);
  _set_params : option (gmap string param);
  set_parameter_keys : list string;
}.

(** [d[k][leaf] += 1] on a group of leaves. *)
Definition incr_leaf (k : string) (group : gmap string leaf) : result (gmap string leaf) :=
  match group !! k with
  | None => Raise KeyError
  | Some (LInt z) => Ok (<[k := LInt (z + 1)]> group)
  | Some (LStr _) => Raise TypeError
  end.

(** The body of the loop of [_increment_parameters]. *)
Definition _increment_parameter (name : string) (p : gmap string param)
  : result (gmap string param) :=
  if String.eqb (split_head "_"%char name) "key" then
    match p !! name with
    | None => Raise KeyError
    | Some (PArray a) => Ok (<[name := PArray (array_incr a)]> p)
    | Some _ => Raise TypeError
    end
  else if String.eqb (split_head "-"%char name) "networks" then
    match p !! name with
    | None => Raise KeyError
    | Some (PNested m) =>
        match m !! "layer_0" with
        | None => Raise KeyError
        | Some layer =>
            layer ← incr_leaf "weights" layer;
            layer ← incr_leaf "biases" layer;
            Ok (<[name := PNested (<["layer_0" := layer]> m)]> p)
        end
    | Some (PArray _) => Raise IndexError
    | Some _ => Raise TypeError
    end
  else Ok p.

(** [_increment_parameters(names)] *)
Fixpoint _increment_parameters (names : list string) (p : gmap string param)
  : result (gmap string param) :=
  match names with
  | [] => Ok p
  | name :: names' => p ← _increment_parameter name p; _increment_parameters names' p
  end.

(** [{name: self.store.parameters[name] for name in names}] *)
Fixpoint lookup_all (names : list string) (p : gmap string param)
  : result (gmap string param) :=
  match names with
  | [] => Ok ∅
  | name :: names' =>
      match p !! name with
      | None => Raise KeyError
      | Some v => out ← lookup_all names' p; Ok (<[name := v]> out)
      end
  end.

(** [get_parameters(names)]. The names that are no set parameters are
    incremented (a set is iterated; the model takes its elements in the
    order of [names]). *)
Definition get_parameters (names : list string) (self : t)
  : result (gmap string param * t) :=
  let get_names :=
    remove_dups (filter (λ n, n ∉ set_parameter_keys self) names) in
  p ← _increment_parameters get_names (parameters self);
  get_params ← lookup_all names p;
  Ok (get_params,
      mk p (Some names) (Some get_params) (_set_params self) (set_parameter_keys self)).

(** [set_parameters(set_params)] *)
Definition set_parameters (set_params : gmap string param) (self : t) : result (() * t) :=
  Ok ((), mk (set_params ∪ parameters self) (_param_names self)
              (get_parameters_attr self) (Some set_params) (set_parameter_keys self)).

End MockParameterServer.

(** ** mava.systems.jax.parameter_client *)

Module ParameterClient.

(** Modelled from the spec: the state of the Parameter Client, which is not
    among the sources: [parameters] (local cache, name→value), [get_keys]
    (subset eligible for pull), [set_keys] (subset eligible for push),
    [update_period] (number of calls between allowed synchronizations), an
    internal call counter. *)
Record t := mk {
  _parameters : gmap string param;
  _get_keys : list string;
  _set_keys : list string;
  _update_period : Z;
  _call_counter : Z;
}.

Definition with_parameters (p : gmap string param) (self : t) : t :=
  mk p (_get_keys self) (_set_keys self) (_update_period self) (_call_counter self).

Definition with_call_counter (n : Z) (self : t) : t :=
  mk (_parameters self) (_get_keys self) (_set_keys self) (_update_period self) n.

(** Modelled from the spec: the merge of a nested-mapping-valued parameter
    into the cached one "by reference replacement per leaf key": every
    leaf of the new mapping replaces the leaf of the cache under the same
    group and leaf key. *)
Definition merge_nested (old new : gmap string (gmap string leaf))
  : gmap string (gmap string leaf) :=
  union_with (λ n o, Some (n ∪ o)) new old.

(** Modelled from the spec: the supported shapes of a parameter are the
    nested mapping of leaves and the scalar/array. *)
Definition supported (v : param) : bool :=
  match v with
  | PArray _ | PNested _ => true
  | PFunction | PString _ => false
  end.

(** Modelled from the spec: the update of the cache with one new parameter:
    a nested mapping is merged, a scalar or array overwrites, any other
    runtime type fails with [NotImplementedError]. *)
Definition _copy_parameter (key : string) (v : param) (cache : gmap string param)
  : result (gmap string param) :=
  match v with
  | PNested new =>
      match cache !! key with
      | Some (PNested old) => Ok (<[key := PNested (merge_nested old new)]> cache)
      | _ => Ok (<[key := PNested new]> cache)
      end
  | PArray a => Ok (<[key := PArray a]> cache)
  | PFunction | PString _ => Raise NotImplementedError
  end.

(** Modelled from the spec: [_copy(new_parameters)], the local cache update
    primitive, which is not among the sources. *)
Definition _copy (new_parameters : gmap string param) (self : t) : result t :=
  cache ← map_fold (λ key v acc, cache ← acc; _copy_parameter key v cache)
             (Ok (_parameters self)) new_parameters;
  Ok (with_parameters cache self).

(** Modelled from the spec: [get_and_wait()] synchronously fetches
    [get_keys] from the store and overwrites the local cache entries for
    exactly those keys. *)
Definition get_and_wait (self : t) (server : MockParameterServer.t)
  : result (t * MockParameterServer.t) :=
  '(new_parameters, server) ← MockParameterServer.get_parameters (_get_keys self) server;
  self ← _copy new_parameters self;
  Ok (self, server).

(** Modelled from the spec: the periodic non-blocking API
    ([_adjust_and_request] pattern): on each invocation, increments the
    call counter; when the counter reaches [update_period], it resets to
    zero and triggers a synchronization (here the fetch of [get_keys] and
    the merge into the cache); otherwise it is a no-op. *)
Definition _adjust_and_request (self : t) (server : MockParameterServer.t)
  : result (t * MockParameterServer.t) :=
  let self := with_call_counter (_call_counter self + 1) self in
  if bool_decide (_update_period self ≤ _call_counter self)%Z then
    get_and_wait (with_call_counter 0 self) server
  else Ok (self, server).

(** [n] successive invocations of the hook. *)
Fixpoint repeat_adjust (n : nat) (self : t) (server : MockParameterServer.t)
  : result (t * MockParameterServer.t) :=
  match n with
  | O => Ok (self, server)
  | S n' =>
      '(self, server) ← repeat_adjust n' self server;
      _adjust_and_request self server
  end.

End ParameterClient.

(** ** Decidable equality of the values of the model *)

Global Instance exn_eq_dec : EqDecision exn.
Proof. solve_decision. Defined.
Global Instance result_eq_dec {A} `{EqDecision A} : EqDecision (result A).
Proof. solve_decision. Defined.
Global Instance spec_float_eq_dec : EqDecision spec_float.
Proof. solve_decision. Defined.
Global Instance leaf_eq_dec : EqDecision params.leaf.
Proof. solve_decision. Defined.
Global Instance pdtype_eq_dec : EqDecision params.pdtype.
Proof. solve_decision. Defined.
Global Instance array_eq_dec : EqDecision params.array.
Proof. solve_decision. Defined.
Global Instance param_eq_dec : EqDecision params.param.
Proof. solve_decision. Defined.
Global Instance MockParameterServer_eq_dec : EqDecision MockParameterServer.t.
Proof. solve_decision. Defined.
Global Instance ParameterClient_eq_dec : EqDecision ParameterClient.t.
Proof. solve_decision. Defined.

(** ** The cache against the store *)

Section parameter_specification.
Import ParameterClient.
Local Open Scope Z_scope.

(** The cached value of a parameter after the merge of the new value [v]. *)
Definition merged (old : option param) (v : param) : param :=
  match v with
  | PNested new =>
      match old with
      | Some (PNested o) => PNested (merge_nested o new)
      | _ => PNested new
      end
  | _ => v
  end.

(** The cached value holds all of the new value [v]: the array itself, or
    every leaf of the nested mapping. *)
Definition carries (v cached : param) : Prop :=
  match v, cached with
  | PArray a, PArray b => a = b
  | PNested m, PNested m' =>
      ∀ g grp l x, m !! g = Some grp → grp !! l = Some x →
        ∃ grp', m' !! g = Some grp' ∧ grp' !! l = Some x
  | _, _ => False
  end.

(** The cached nested mapping has no group and no leaf key that the one of
    the store lacks. *)
Definition group_within (new : gmap string (gmap string leaf))
    (g : string) (grp : gmap string leaf) : Prop :=
  match new !! g with
  | Some grp' => dom grp ⊆ dom grp'
  | None => False
  end.

Definition nested_within (old new : gmap string (gmap string leaf)) : Prop :=
  map_Forall (group_within new) old.

(** The cached array has the dtype and the size of the one of the store. *)
Definition array_like (cached new : array) : Prop :=
  a_dtype cached = a_dtype new ∧ a_size cached = a_size new.

Definition entry_within (store : gmap string param) (k : string) (v : param) : Prop :=
  match v, store !! k with
  | PNested old, Some (PNested new) => nested_within old new
  | PArray cached, Some (PArray new) => array_like cached new
  | _, _ => True
  end.

(** Every parameter of the cache has the structure of the parameter of the
    store under the same name. *)
Definition cache_within_store (cache store : gmap string param) : Prop :=
  map_Forall (entry_within store) cache.

Global Instance group_within_dec new g grp : Decision (group_within new g grp).
Proof. unfold group_within. destruct (new !! g); apply _. Defined.

Global Instance nested_within_dec old new : Decision (nested_within old new).
Proof. unfold nested_within. apply _. Defined.

Global Instance array_like_dec cached new : Decision (array_like cached new).
Proof. unfold array_like. apply _. Defined.

Global Instance entry_within_dec store k v : Decision (entry_within store k v).
Proof. unfold entry_within. destruct v, (store !! k) as [[]|]; apply _. Defined.

Global Instance cache_within_store_dec cache store : Decision (cache_within_store cache store).
Proof. unfold cache_within_store. apply _. Defined.

End parameter_specification.

(** The fixtures of the test-suite. *)
Module fixture.
Import ParameterClient.
Local Open Scope Z_scope.
Definition arr (d : pdtype) (z : Z) : param :=
  PArray (match d with
          | int32 => Int32Array [z]
          | pfloat32 => Float32Array [float32_of_Z z]
          end).
Definition net (z : Z) : param :=
  PNested {[ "layer_0" := {[ "weights" := LInt z; "biases" := LInt z ]} ]}.
Definition parameters : gmap string param :=
  list_to_map
    [("key_0", arr int32 0); ("key_1", arr pfloat32 1); ("key_2", arr int32 2);
     ("key_3", arr int32 3); ("key_4", arr int32 4);
     ("networks-network_key_0", net 0); ("networks-network_key_1", net 1);
     ("networks-network_key_2", net 2)]%string.
Definition mock_parameter_server : MockParameterServer.t :=
  MockParameterServer.mk parameters None None None ["key_0"; "key_2"]%string.
Definition parameter_client : ParameterClient.t :=
  ParameterClient.mk parameters
    ["key_0"; "key_1"; "key_2"; "key_3"; "key_4"; "networks-network_key_0";
     "networks-network_key_1"; "networks-network_key_2"]%string
    ["key_0"; "key_2"]%string 10 0.

(** The store and the cache after [get_and_wait()], as [test_get_and_wait]
    expects them. *)
Definition parameters_after : gmap string param :=
  list_to_map
    [("key_0", arr int32 0); ("key_1", arr pfloat32 2); ("key_2", arr int32 2);
     ("key_3", arr int32 4); ("key_4", arr int32 5);
     ("networks-network_key_0", net 1); ("networks-network_key_1", net 2);
     ("networks-network_key_2", net 3)]%string.
Definition mock_parameter_server_after : MockParameterServer.t :=
  MockParameterServer.mk parameters_after
    (Some (_get_keys parameter_client)) (Some parameters_after) None
    ["key_0"; "key_2"]%string.
End fixture.

(** Clients on the store of the fixture. *)
Module client_examples.
Import ParameterClient fixture.
Local Open Scope Z_scope.





End client_examples.

(** ** transition.py: the keys of the structures of a window *)

Section adder_keys.
Import transition.
Context {Obs Act Ext : Type}.
Local Abbreviation Step := (base.Step Obs Act Ext).

(** The keys of the rewards (after the fix for an empty rewards dict) and
    of the discounts of a step are those of [agents]. *)
Definition step_keys_agree (agents : gset string) (s : Step) : bool :=
  bool_decide (dom (rewards_or_zeros s) = dom (base.discounts s)) &&
  bool_decide (dom (base.discounts s) = agents).

(** The structures [_write] passes to [broadcast_structures] and to
    [tree.map_structure] have the same keys. *)
Definition keys_agree (window : list Step) : bool :=
  match window with
  | [] => false
  | s0 :: later =>
      bool_decide (dom (base.discounts s0) = dom (rewards_or_zeros s0)) &&
      bool_decide (dom (base.observations s0) = dom (rewards_or_zeros s0)) &&
      forallb (step_keys_agree (dom (base.discounts s0))) later
  end.
End adder_keys.

Module more_examples.
Import transition examples.


(** the first two steps of [buffer123] *)
Definition buffer12 : list (base.Step Z Z Z) := [step 10 1 4 5; step 11 2 5 9].

End more_examples.

(** ** transition.py: [signature] and [_broadcast_specs] *)

Module signature_model.
Section dtypes.
(** The dtypes of numpy and [np.result_type] on one or more of them; the
    specs of observations, of actions and of extras are opaque. *)
Context {D O A E T : Type}.
Context (result_type : list D → D).
Local Open Scope nat_scope.

(** [acme.specs.Array]: shape, dtype and name. *)
Record Array := mk_Array {
  shape : list nat;
  dtype : D;
  name : option string;
}.

(** The broadcast of two shapes read from the last axis on: two
    dimensions go together when they are equal or one of them is 1. *)
Fixpoint broadcast_aligned (a b : list nat) : result (list nat) :=
  match a, b with
  | [], _ => Ok b
  | _, [] => Ok a
  | x :: a', y :: b' =>
      rest ← broadcast_aligned a' b';
      if decide (x = y) then Ok (x :: rest)
      else if decide (x = 1) then Ok (y :: rest)
      else if decide (y = 1) then Ok (x :: rest)
      else Raise ValueError
  end.

(** The shape of [np.broadcast] of values, from their shapes (the
    limits of numpy on the number of operands and of axes are not
    modelled). *)
Fixpoint broadcast_all (acc : list nat) (shapes : list (list nat)) : result (list nat) :=
  match shapes with
  | [] => Ok acc
  | s :: shapes' => acc ← broadcast_aligned acc (reverse s); broadcast_all acc shapes'
  end.

Definition np_broadcast_shape (shapes : list (list nat)) : result (list nat) :=
  out ← broadcast_all [] shapes; Ok (reverse out).

(** [_broadcast_specs] on the specs [args]. Without an argument
    [np.result_type] raises ValueError. *)
Definition _broadcast_specs (args : list Array) : result Array :=
  match args with
  | [] => Raise ValueError
  | _ =>
      bc_shape ← np_broadcast_shape (shape <$> args);
      let dtype := result_type (dtype <$> args) in
      Ok (mk_Array bc_shape dtype None)
  end.

(** The shape [a] broadcasts to the shape [c] (both read from the last
    axis on). *)
Definition fits (a c : list nat) : Prop := broadcast_aligned a c = Ok c.

(** [acme.specs.EnvironmentSpec] of one agent. *)
Record EnvironmentSpec := mk_EnvironmentSpec {
  observations : O;
  actions : A;
  rewards : Array;
  discounts : Array;
}.

(** [mava.specs.MAEnvironmentSpec], as far as [signature] reads it: the
    results of [get_agent_specs()] and of [get_agent_ids()]. *)
Record MAEnvironmentSpec := mk_MAEnvironmentSpec {
  get_agent_specs : gmap string EnvironmentSpec;
  get_agent_ids : list string;
}.

(** The dictionaries [signature] fills in its loop. *)
Record spec_dicts := mk_spec_dicts {
  obs_specs : gmap string O;
  act_specs : gmap string A;
  reward_specs : gmap string Array;
  step_discount_specs : gmap string Array;
  extras_spec : gmap string (gmap string E);
}.

(** The members of [transition_spec]. *)
Inductive component :=
| ObsSpecs (m : gmap string O)
| ActSpecs (m : gmap string A)
| ArraySpecs (m : gmap string Array)
| ExtrasSpecs (m : gmap string (gmap string E)).

(** The body of the loop over the agents. *)
Definition signature_agent (agent_specs : gmap string EnvironmentSpec)
    (acc : spec_dicts) (agent : string) : result spec_dicts :=
  match agent_specs !! agent with
  | None => Raise KeyError
  | Some spec =>
      let '(rewards_spec, step_discounts_spec) := (rewards spec, discounts spec) in
      rewards_spec ← _broadcast_specs [rewards_spec; step_discounts_spec];
      Ok (mk_spec_dicts
            (<[agent := observations spec]> (obs_specs acc))
            (<[agent := actions spec]> (act_specs acc))
            (<[agent := rewards_spec]> (reward_specs acc))
            (<[agent := step_discounts_spec]> (step_discount_specs acc))
            (<[agent := ∅]> (extras_spec acc)))
  end.

Fixpoint signature_loop (agent_specs : gmap string EnvironmentSpec)
    (acc : spec_dicts) (agents : list string) : result spec_dicts :=
  match agents with
  | [] => Ok acc
  | agent :: agents' =>
      acc ← signature_agent agent_specs acc agent;
      signature_loop agent_specs acc agents'
  end.

(** What the loop leaves in its dictionaries for the agent [a] with the
    spec [spec] and the rewards spec [r]. *)
Definition agent_entries (d : spec_dicts) (a : string) (spec : EnvironmentSpec)
    (r : Array) : Prop :=
  obs_specs d !! a = Some (observations spec) ∧
  act_specs d !! a = Some (actions spec) ∧
  reward_specs d !! a = Some r ∧
  step_discount_specs d !! a = Some (discounts spec) ∧
  extras_spec d !! a = Some ∅.

(** The list [transition_spec] of [signature]. The argument [extras_spec]
    is rebound to an empty dictionary before the loop, so the argument is
    not read. *)
Definition transition_spec (environment_spec : MAEnvironmentSpec)
    (extras_spec_arg : gmap string E) : result (list component) :=
  let agent_specs := get_agent_specs environment_spec in
  let agents := get_agent_ids environment_spec in
  d ← signature_loop agent_specs (mk_spec_dicts ∅ ∅ ∅ ∅ ∅) agents;
  let transition_spec :=
    [ObsSpecs (obs_specs d); ActSpecs (act_specs d); ArraySpecs (reward_specs d);
     ArraySpecs (step_discount_specs d); ObsSpecs (obs_specs d)] in
  Ok (if is_empty (extras_spec d) then transition_spec
      else transition_spec ++ [ExtrasSpecs (extras_spec d)]).


End dtypes.
End signature_model.

Module signature_examples.
Import signature_model.
Local Open Scope nat_scope.

(** [np.result_type] on floating dtypes. *)
Definition result_type (ds : list np.dtype) : np.dtype := foldr np.result_type float32 ds.

(** An agent with observations "obs", actions "act", float32 rewards of
    the shape [reward_shape] and scalar float32 discounts. *)
Definition agent_spec (reward_shape : list nat) : EnvironmentSpec (D:=np.dtype) :=
  mk_EnvironmentSpec "obs"%string "act"%string
    (mk_Array reward_shape float32 (Some "reward"%string))
    (mk_Array [] float32 (Some "discount"%string)).

Definition environment_spec : MAEnvironmentSpec (D:=np.dtype) :=
  mk_MAEnvironmentSpec
    {["agent_0"%string := agent_spec []; "agent_1"%string := agent_spec [2]]}
    ["agent_0"; "agent_1"]%string.

End signature_examples.

(** ** parameter_client_test.py: further runs of the mock server *)

Module server_examples.
Import MockParameterServer fixture.
Local Open Scope Z_scope.

(** [get_parameters(names3)] on the fixture: "key_3" is asked for twice. *)
Definition names3 : list string := ["key_3"; "key_3"; "key_0"]%string.
Definition out3 : gmap string param :=
  list_to_map [("key_3", arr int32 4); ("key_0", arr int32 0)]%string.
Definition server3 : MockParameterServer.t :=
  mk (<["key_3"%string := arr int32 4]> fixture.parameters)
     (Some names3) (Some out3) None ["key_0"; "key_2"]%string.

(** [set_parameters({"key_0": 7})], then [get_parameters(names01)]. *)
Definition set_params7 : gmap string param := {["key_0"%string := arr int32 7]}.
Definition server7 : MockParameterServer.t :=
  mk (set_params7 ∪ fixture.parameters) None None (Some set_params7)
     ["key_0"; "key_2"]%string.
Definition names01 : list string := ["key_0"; "key_1"]%string.
Definition out01 : gmap string param :=
  list_to_map [("key_0", arr int32 7); ("key_1", arr pfloat32 2)]%string.
Definition server01 : MockParameterServer.t :=
  mk (<["key_1"%string := arr pfloat32 2]> (set_params7 ∪ fixture.parameters))
     (Some names01) (Some out01) (Some set_params7) ["key_0"; "key_2"]%string.

End server_examples.

(** * Properties *)

(** ** The heap monad and the traversals *)

Section adder_facts.
Import transition.

(** A step of a computation that returns. *)
Lemma io_bind_ok {A B} (m : io A) (k : A → io B) h a h1 :
  m h = Ok (a, h1) → (m ≫= k) h = k a h1.
Proof. intros H. unfold mbind, io_bind. by rewrite H. Qed.

(** The rule of the traversal: an invariant over the leaves visited so far,
    the results packed so far and the heap. *)
Lemma traverse_spec {A B} (f : A → io B) (m : gmap string A)
    (I : gmap string A → gmap string B → heap → Prop) h0 :
  I ∅ ∅ h0 →
  (∀ k x m' out h,
     m' !! k = None → m !! k = Some x → m' ⊆ m → I m' out h →
     ∃ y h', f x h = Ok (y, h') ∧ I (<[k:=x]> m') (<[k:=y]> out) h') →
  ∃ out h', tree.traverse f m h0 = Ok (out, h') ∧ I m out h'.
Proof.
  intros Hnil Hstep. unfold tree.traverse.
  cut (∀ m', m' ⊆ m →
         ∃ out h', map_fold (λ k x acc, out ← acc; y ← f x; mret (<[k:=y]> out))
                     (mret ∅) m' h0 = Ok (out, h') ∧ I m' out h').
  { intros H. by apply H. }
  intros m'. 
  apply (map_fold_weak_ind (λ r m', m' ⊆ m → ∃ out h', r h0 = Ok (out, h') ∧ I m' out h')).
  - intros _. by exists ∅, h0.
  - intros k x m1 r Hk IH Hsub.
    assert (Hm1 : m1 ⊆ m).
    { etrans; [|exact Hsub]. by apply insert_subseteq. }
    destruct (IH Hm1) as (out & h & Hr & HI).
    assert (Hx : m !! k = Some x).
    { eapply lookup_weaken; [|exact Hsub]. by rewrite lookup_insert_eq. }
    destruct (Hstep k x m1 out h Hk Hx Hm1 HI) as (y & h' & Hf & HI').
    exists (<[k:=y]> out), h'. split; [|done].
    rewrite (io_bind_ok _ _ _ _ _ Hr). by rewrite (io_bind_ok _ _ _ _ _ Hf).
Qed.

(** A traversal that allocates one array per leaf: the new arrays are
    pairwise distinct, they were not allocated before, and the heap is
    only extended. *)
Lemma traverse_alloc {A} (f : A → io value) (g : A → heap → ndarray)
    (m : gmap string A) (h0 : heap) :
  (∀ x h, f x h = Ok (Arr (fresh (dom h)), <[fresh (dom h) := g x h]> h)) →
  (∀ a x h, m !! a = Some x → h0 ⊆ h → g x h = g x h0) →
  ∃ (L : gmap string loc) h',
    tree.traverse f m h0 = Ok (Arr <$> L, h') ∧
    dom L = dom m ∧ h0 ⊆ h' ∧
    (∀ a b l, L !! a = Some l → L !! b = Some l → a = b) ∧
    (∀ a l, L !! a = Some l →
       h0 !! l = None ∧ ∃ x, m !! a = Some x ∧ h' !! l = Some (g x h0)) ∧
    (∀ l, is_Some (h' !! l) → is_Some (h0 !! l) ∨ ∃ a, L !! a = Some l).
Proof.
  intros Hf Hg.
  destruct (traverse_spec f m
    (λ m' out h, ∃ L : gmap string loc,
       out = Arr <$> L ∧ dom L = dom m' ∧ h0 ⊆ h ∧
       (∀ a b l, L !! a = Some l → L !! b = Some l → a = b) ∧
       (∀ a l, L !! a = Some l →
          h0 !! l = None ∧ ∃ x, m' !! a = Some x ∧ h !! l = Some (g x h0)) ∧
       (∀ l, is_Some (h !! l) → is_Some (h0 !! l) ∨ ∃ a, L !! a = Some l)) h0)
    as (out & h' & Hrun & L & -> & HI).
  - exists ∅. rewrite fmap_empty, !dom_empty_L. split_and!; try done.
    intros l Hl. by left.
  - intros k x m' out h Hk Hx Hsub (L & -> & Hdom & Hext & Hinj & Hcells & Hdomh).
    remember (fresh (dom h)) as l eqn:El.
    assert (Hl : h !! l = None).
    { apply not_elem_of_dom. rewrite El. apply is_fresh. }
    assert (HkL : L !! k = None).
    { apply not_elem_of_dom. rewrite Hdom. by apply not_elem_of_dom. }
    exists (Arr l), (<[l := g x h]> h). split; [rewrite El; apply Hf|].
    exists (<[k := l]> L). split_and!.
    + by rewrite fmap_insert.
    + by rewrite !dom_insert_L, Hdom.
    + etrans; [exact Hext|]. by apply insert_subseteq.
    + intros a b l' Ha Hb.
      destruct (decide (a = k)) as [->|Hak], (decide (b = k)) as [->|Hbk]; [done|..].
      * rewrite lookup_insert_eq in Ha. rewrite lookup_insert_ne in Hb by done.
        apply (inj Some) in Ha as <-.
        destruct (Hcells _ _ Hb) as (_ & ? & _ & Hc). congruence.
      * rewrite lookup_insert_eq in Hb. rewrite lookup_insert_ne in Ha by done.
        apply (inj Some) in Hb as <-.
        destruct (Hcells _ _ Ha) as (_ & ? & _ & Hc). congruence.
      * rewrite lookup_insert_ne in Ha, Hb by done. eauto.
    + intros a l' Ha. destruct (decide (a = k)) as [->|Hak].
      * rewrite lookup_insert_eq in Ha. apply (inj Some) in Ha as <-. split.
        { destruct (h0 !! l) eqn:E; [|done].
          eapply lookup_weaken in E; [|exact Hext]. congruence. }
        exists x. rewrite !lookup_insert_eq. split; [done|].
        f_equal. by eapply Hg.
      * rewrite lookup_insert_ne in Ha by done.
        destruct (Hcells _ _ Ha) as (? & x' & ? & Hc). split; [done|].
        exists x'. rewrite lookup_insert_ne by done. split; [done|].
        rewrite lookup_insert_ne; [done|]. intros <-. congruence.
    + intros l' Hl'. destruct (decide (l' = l)) as [->|Hne].
      * right. exists k. by rewrite lookup_insert_eq.
      * rewrite lookup_insert_ne in Hl' by done.
        destruct (Hdomh _ Hl') as [?|(a & Ha)]; [by left|right].
        exists a. rewrite lookup_insert_ne; [done|]. intros <-. congruence.
  - exists L, h'. destruct HI as (? & ? & ? & ? & ?). by split_and!.
Qed.

(** A traversal that writes in place into one array per leaf, the arrays
    being pairwise distinct: each is updated once, from the heap before the
    traversal, and no other cell changes. *)
Lemma traverse_inplace {X} (f : X → io value) (tgt : X → loc)
    (new : X → heap → ndarray → ndarray) (m : gmap string X) (h0 : heap) :
  (∀ a x h, m !! a = Some x → f x h = Ok (Arr (tgt x), alter (new x h) (tgt x) h)) →
  (∀ a b x y, m !! a = Some x → m !! b = Some y → tgt x = tgt y → a = b) →
  (∀ a x h, m !! a = Some x →
     (∀ l, (∀ b y, m !! b = Some y → tgt y ≠ l) → h !! l = h0 !! l) →
     new x h = new x h0) →
  ∃ out h', tree.traverse f m h0 = Ok (out, h') ∧
    (∀ a x, m !! a = Some x → h' !! tgt x = new x h0 <$> h0 !! tgt x) ∧
    (∀ l, (∀ a x, m !! a = Some x → tgt x ≠ l) → h' !! l = h0 !! l).
Proof.
  intros Hf Hinj Hnew.
  destruct (traverse_spec f m
    (λ m' (out : gmap string value) h,
       (∀ a x, m' !! a = Some x → h !! tgt x = new x h0 <$> h0 !! tgt x) ∧
       (∀ l, (∀ a x, m' !! a = Some x → tgt x ≠ l) → h !! l = h0 !! l)) h0)
    as (out & h' & Hrun & HI).
  - split; [intros a x; by rewrite lookup_empty|done].
  - intros k x m' out h Hk Hx Hsub [Hdone Hrest].
    exists (Arr (tgt x)), (alter (new x h) (tgt x) h). split; [exact (Hf k x h Hx)|].
    assert (Hfresh : ∀ a y, m' !! a = Some y → tgt y ≠ tgt x).
    { intros a y Ha Heq. assert (a = k) as ->; [|congruence].
      eapply Hinj; [| |exact Heq]; [|done]. by eapply lookup_weaken. }
    assert (Hnx : new x h = new x h0).
    { eapply Hnew; [done|]. intros l Hl. apply Hrest.
      intros a y Ha. eapply Hl. by eapply lookup_weaken. }
    split.
    + intros a y Ha. destruct (decide (a = k)) as [->|Hak].
      * rewrite lookup_insert_eq in Ha. simplify_eq.
        rewrite lookup_alter_eq, Hnx. f_equal. apply Hrest.
        intros a' y' Ha'. by apply (Hfresh a' y' Ha').
      * rewrite lookup_insert_ne in Ha by done.
        rewrite lookup_alter_ne; [by apply (Hdone a)|]. intros Heq.
        by apply (Hfresh a y Ha).
    + intros l Hl. rewrite lookup_alter_ne.
      * apply Hrest. intros a y Ha. apply (Hl a y).
        rewrite lookup_insert_ne; [done|]. intros <-. congruence.
      * apply (Hl k x). by rewrite lookup_insert_eq.
  - by exists out, h'.
Qed.

Lemma assert_same_structure_ok {A B} (m1 : gmap string A) (m2 : gmap string B) h :
  dom m1 = dom m2 → tree.assert_same_structure m1 m2 h = Ok ((), h).
Proof. intros H. unfold tree.assert_same_structure. by rewrite bool_decide_eq_true_2. Qed.

Lemma bind_assert_same_structure {A B C} (m1 : gmap string A) (m2 : gmap string B)
    (k : () → io C) h :
  dom m1 = dom m2 → (tree.assert_same_structure m1 m2 ≫= k) h = k () h.
Proof. intros H. by apply io_bind_ok, assert_same_structure_ok. Qed.

Lemma broadcast_structures_ok {A B C}
    (a : gmap string A) (b : gmap string B) (c : gmap string C) h :
  dom b = dom a → dom c = dom a →
  tree_utils.broadcast_structures a b c h = Ok ((a, b, c), h).
Proof.
  intros Hb Hc. unfold tree_utils.broadcast_structures.
  by rewrite !bind_assert_same_structure.
Qed.

Lemma deref_frame (h0 h : heap) v :
  value_allocated h0 v → (∀ l, is_Some (h0 !! l) → h !! l = h0 !! l) →
  npops.deref h v = npops.deref h0 v.
Proof. destruct v as [l|x]; simpl; [|done]. intros Hl Hfr. by rewrite (Hfr l Hl). Qed.

Lemma rewards_or_zeros_allocated {Obs Act Ext} h (s : base.Step Obs Act Ext) :
  allocated h (base.rewards s) → allocated h (rewards_or_zeros s).
Proof.
  intros H. unfold rewards_or_zeros. destruct (is_empty _); [|done].
  intros a v. rewrite lookup_fmap. destruct (base.discounts s !! a); simpl; [|done].
  by intros [= <-].
Qed.

Section loop.
Context {Obs Act Ext : Type}.
Context (h0 : heap) (K : gset string) (g : ndarray).
Context (Ltd Lnsr : gmap string loc) (sd : gmap string value).
Hypothesis HdomTd : dom Ltd = K.
Hypothesis HdomNsr : dom Lnsr = K.
Hypothesis Hdomsd : dom sd = K.
Hypothesis Hsd : ∀ a v, sd !! a = Some v → v = Scalar g.
Hypothesis HinjTd : ∀ a b l, Ltd !! a = Some l → Ltd !! b = Some l → a = b.
Hypothesis HinjNsr : ∀ a b l, Lnsr !! a = Some l → Lnsr !! b = Some l → a = b.
Hypothesis HfreshTd : ∀ a l, Ltd !! a = Some l → h0 !! l = None.
Hypothesis HfreshNsr : ∀ a l, Lnsr !! a = Some l → h0 !! l = None.
Hypothesis Hdisj : ∀ a b l, Ltd !! a = Some l → Lnsr !! b = Some l → False.

(** [tree.map_structure(operator.imul, total_discount, args)] *)
Lemma imul_structure (args : gmap string value) (h : heap) :
  dom args = K →
  (∀ a y h', args !! a = Some y →
     (∀ l, (∀ b, Ltd !! b ≠ Some l) → h' !! l = h !! l) →
     npops.deref h' y = npops.deref h y) →
  ∃ out h',
    tree.map_structure2 npops.imul (Arr <$> Ltd) args h = Ok (out, h') ∧
    (∀ a l y, Ltd !! a = Some l → args !! a = Some y →
       h' !! l = (λ x, multiply_into x (npops.deref h y)) <$> h !! l) ∧
    (∀ l, (∀ b, Ltd !! b ≠ Some l) → h' !! l = h !! l).
Proof.
  intros Hdom Hstable. unfold tree.map_structure2.
  rewrite bind_assert_same_structure by (by rewrite dom_fmap_L, HdomTd, Hdom).
  destruct (traverse_inplace (λ p : value * value, npops.imul p.1 p.2) tgt2
    (λ p h x, multiply_into x (npops.deref h p.2))
    (map_zip (Arr <$> Ltd) args) h) as (out & h' & Hrun & Htgt & Hrest).
  - intros a [v y] h1 Hp. apply map_lookup_zip_Some in Hp as [Hv _]. simpl in *.
    rewrite lookup_fmap in Hv. destruct (Ltd !! a); simplify_eq/=. done.
  - intros a b [v y] [v' y'] Ha Hb Heq.
    apply map_lookup_zip_Some in Ha as [Ha _]. apply map_lookup_zip_Some in Hb as [Hb _].
    simpl in *. rewrite lookup_fmap in Ha, Hb.
    unfold tgt2 in Heq; simpl in Heq.
    destruct (Ltd !! a) as [l|] eqn:Ea, (Ltd !! b) as [l'|] eqn:Eb; simplify_eq/=.
    by eapply HinjTd.
  - intros a [v y] h1 Hp Hfr. apply map_lookup_zip_Some in Hp as [Hv Hy]. simpl in *.
    rewrite (Hstable a y h1 Hy); [done|].
    intros l Hl. apply Hfr. intros b [v' y'] Hb Heq.
    apply map_lookup_zip_Some in Hb as [Hb _]. simpl in *. rewrite lookup_fmap in Hb.
    unfold tgt2 in Heq; simpl in Heq.
    destruct (Ltd !! b) as [l'|] eqn:Eb; simplify_eq/=. by apply (Hl b).
  - exists out, h'. split; [done|]. split.
    + intros a l y Ha Hy.
      specialize (Htgt a (Arr l, y)). simpl in Htgt. apply Htgt.
      apply map_lookup_zip_Some. simpl. by rewrite lookup_fmap, Ha.
    + intros l Hl. apply Hrest. intros a [v y] Hp Heq.
      apply map_lookup_zip_Some in Hp as [Hv _]. simpl in *. rewrite lookup_fmap in Hv.
      unfold tgt2 in Heq; simpl in Heq.
      destruct (Ltd !! a) as [l'|] eqn:Ea; simplify_eq/=. by apply (Hl a).
Qed.

(** [tree.map_structure(lambda nsr, sr, td: operator.iadd(nsr, sr * td), ..)] *)
Lemma iadd_structure (sr : gmap string value) (h : heap) :
  dom sr = K →
  (∀ a y h', sr !! a = Some y →
     (∀ l, (∀ b, Lnsr !! b ≠ Some l) → h' !! l = h !! l) →
     npops.deref h' y = npops.deref h y) →
  ∃ out h',
    tree.map_structure3 (λ nsr sr td, t ← npops.mul sr td; npops.iadd nsr t)
      (Arr <$> Lnsr) sr (Arr <$> Ltd) h = Ok (out, h') ∧
    (∀ a l y lt, Lnsr !! a = Some l → sr !! a = Some y → Ltd !! a = Some lt →
       h' !! l = (λ x, add_into x (multiply (npops.deref h y) (npops.deref h (Arr lt))))
                 <$> h !! l) ∧
    (∀ l, (∀ b, Lnsr !! b ≠ Some l) → h' !! l = h !! l).
Proof.
  intros Hdom Hstable. unfold tree.map_structure3.
  rewrite bind_assert_same_structure by (by rewrite dom_fmap_L, HdomNsr, Hdom).
  rewrite bind_assert_same_structure by (by rewrite !dom_fmap_L, HdomNsr, HdomTd).
  destruct (traverse_inplace
    (λ p : value * value * value, t ← npops.mul p.1.2 p.2; npops.iadd p.1.1 t) tgt3
    (λ p h x, add_into x (multiply (npops.deref h p.1.2) (npops.deref h p.2)))
    (map_zip (map_zip (Arr <$> Lnsr) sr) (Arr <$> Ltd)) h)
    as (out & h' & Hrun & Htgt & Hrest).
  - intros a [[v y] t] h1 Hp. apply map_lookup_zip_Some in Hp as [Hp _].
    apply map_lookup_zip_Some in Hp as [Hv _]. simpl in *.
    rewrite lookup_fmap in Hv. destruct (Lnsr !! a); simplify_eq/=. done.
  - intros a b [[v y] t] [[v' y'] t'] Ha Hb Heq.
    apply map_lookup_zip_Some in Ha as [Ha _]. apply map_lookup_zip_Some in Ha as [Ha _].
    apply map_lookup_zip_Some in Hb as [Hb _]. apply map_lookup_zip_Some in Hb as [Hb _].
    simpl in *. rewrite lookup_fmap in Ha, Hb.
    unfold tgt3 in Heq; simpl in Heq.
    destruct (Lnsr !! a) as [l|] eqn:Ea, (Lnsr !! b) as [l'|] eqn:Eb; simplify_eq/=.
    by eapply HinjNsr.
  - intros a [[v y] t] h1 Hp Hfr. apply map_lookup_zip_Some in Hp as [Hp Ht].
    apply map_lookup_zip_Some in Hp as [Hv Hy]. simpl in *.
    assert (Hfr' : ∀ l, (∀ b, Lnsr !! b ≠ Some l) → h1 !! l = h !! l).
    { intros l Hl. apply Hfr. intros b [[v' y'] t'] Hb Heq.
      apply map_lookup_zip_Some in Hb as [Hb _]. apply map_lookup_zip_Some in Hb as [Hb _].
      simpl in *. rewrite lookup_fmap in Hb. unfold tgt3 in Heq; simpl in Heq.
      destruct (Lnsr !! b) as [l'|] eqn:Eb; simplify_eq/=. by apply (Hl b). }
    rewrite (Hstable a y h1 Hy Hfr').
    rewrite lookup_fmap in Ht. destruct (Ltd !! a) as [lt|] eqn:Et; simplify_eq/=.
    rewrite (Hfr' lt); [done|]. intros b Hb. by eapply Hdisj.
  - exists out, h'. split; [done|]. split.
    + intros a l y lt Ha Hy Ht.
      specialize (Htgt a (Arr l, y, Arr lt)). simpl in Htgt. apply Htgt.
      apply map_lookup_zip_Some. simpl. split; [|by rewrite lookup_fmap, Ht].
      apply map_lookup_zip_Some. simpl. by rewrite lookup_fmap, Ha.
    + intros l Hl. apply Hrest. intros a [[v y] t] Hp Heq.
      apply map_lookup_zip_Some in Hp as [Hp _]. apply map_lookup_zip_Some in Hp as [Hv _].
      simpl in *. rewrite lookup_fmap in Hv. unfold tgt3 in Heq; simpl in Heq.
      destruct (Lnsr !! a) as [l'|] eqn:Ea; simplify_eq/=. by apply (Hl a).
Qed.

(** One iteration of the loop of [_write]. *)
Lemma loop_body_spec (s : base.Step Obs Act Ext) acc h :
  step_ok h0 K s → loop_inv h0 Ltd Lnsr acc h →
  ∃ h', _write_loop_body (Arr <$> Lnsr) sd (Arr <$> Ltd) s h = Ok (Arr <$> Ltd, h') ∧
        loop_inv h0 Ltd Lnsr (λ a, acc_step g h0 a (acc a) s) h'.
Proof.
  intros (Hd & Hr & Har & Had) (Hfr & Htd & Hnsr).
  assert (Har' := rewards_or_zeros_allocated _ _ Har).
  unfold _write_loop_body.
  rewrite (io_bind_ok _ _ _ _ _
    (broadcast_structures_ok (base.discounts s) (rewards_or_zeros s) (Arr <$> Ltd) h
       ltac:(by rewrite Hd, Hr) ltac:(by rewrite dom_fmap_L, HdomTd, Hd))).
  assert (HnotTd : ∀ l, is_Some (h0 !! l) → ∀ b, Ltd !! b ≠ Some l).
  { intros l [x Hx] b Hb. apply HfreshTd in Hb. congruence. }
  assert (HnotNsr : ∀ l, is_Some (h0 !! l) → ∀ b, Lnsr !! b ≠ Some l).
  { intros l [x Hx] b Hb. apply HfreshNsr in Hb. congruence. }
  (* total_discount *= self._discount *)
  destruct (imul_structure sd h Hdomsd) as (o1 & h1 & Hrun1 & Ht1 & Hrest1).
  { intros a y h' Hy _. by rewrite (Hsd a y Hy). }
  (* n_step_return += step.reward * total_discount *)
  destruct (iadd_structure (rewards_or_zeros s) h1 Hr) as (o2 & h2 & Hrun2 & Ht2 & Hrest2).
  { intros a y h' Hy Hfr'. specialize (Har' a y Hy). destruct y as [l|x]; simpl in *; [|done].
    rewrite Hfr'; [done|]. by apply HnotNsr. }
  (* total_discount *= step.discount *)
  destruct (imul_structure (base.discounts s) h2 Hd) as (o3 & h3 & Hrun3 & Ht3 & Hrest3).
  { intros a y h' Hy Hfr'. specialize (Had a y Hy). destruct y as [l|x]; simpl in *; [|done].
    rewrite Hfr'; [done|]. by apply HnotTd. }
  exists h3. split.
  { simpl. rewrite (io_bind_ok _ _ _ _ _ Hrun1). rewrite (io_bind_ok _ _ _ _ _ Hrun2).
    by rewrite (io_bind_ok _ _ _ _ _ Hrun3). }
  assert (Hframe : ∀ l, is_Some (h0 !! l) → h3 !! l = h0 !! l).
  { intros l Hl. rewrite Hrest3 by (by apply HnotTd). rewrite Hrest2 by (by apply HnotNsr).
    rewrite Hrest1 by (by apply HnotTd). by apply Hfr. }
  assert (Hread : ∀ v hx, value_allocated h0 v →
            (∀ l, is_Some (h0 !! l) → hx !! l = h0 !! l) → npops.deref hx v = npops.deref h0 v).
  { intros v hx Hv Hx. by apply deref_frame. }
  split; [done|]. split.
  - intros a l Hl.
    assert (is_Some (sd !! a)) as [ys Hys].
    { apply elem_of_dom. rewrite Hdomsd, <- HdomTd. by apply elem_of_dom. }
    assert (is_Some (base.discounts s !! a)) as [yd Hyd].
    { apply elem_of_dom. rewrite Hd, <- HdomTd. by apply elem_of_dom. }
    rewrite (Ht3 a l yd Hl Hyd).
    rewrite Hrest2 by (intros b Hb; by eapply Hdisj).
    rewrite (Ht1 a l ys Hl Hys), (Htd a l Hl). simpl.
    rewrite (Hsd a ys Hys). simpl.
    unfold acc_step, discount_at. rewrite Hyd. simpl.
    rewrite (Hread yd h2); [done|by apply (Had a)|].
    intros l' Hl'. rewrite Hrest2 by (by apply HnotNsr).
    rewrite Hrest1 by (by apply HnotTd). by apply Hfr.
  - intros a l Hl.
    assert (is_Some (Ltd !! a)) as [lt Hlt].
    { apply elem_of_dom. rewrite HdomTd, <- HdomNsr. by apply elem_of_dom. }
    assert (is_Some (sd !! a)) as [ys Hys].
    { apply elem_of_dom. rewrite Hdomsd, <- HdomNsr. by apply elem_of_dom. }
    assert (is_Some (rewards_or_zeros s !! a)) as [yr Hyr].
    { apply elem_of_dom. rewrite Hr, <- HdomNsr. by apply elem_of_dom. }
    rewrite Hrest3 by (intros b Hb; by eapply Hdisj).
    rewrite (Ht2 a l yr lt Hl Hyr Hlt).
    rewrite Hrest1 by (intros b Hb; by eapply Hdisj).
    rewrite (Hnsr a l Hl). simpl.
    rewrite (Ht1 a lt ys Hlt Hys), (Htd a lt Hlt). simpl.
    rewrite (Hsd a ys Hys). simpl.
    unfold acc_step, reward_at. rewrite Hyr. simpl.
    rewrite (Hread yr h1); [done|by apply (Har' a)|].
    intros l' Hl'. rewrite Hrest1 by (by apply HnotTd). by apply Hfr.
Qed.

(** The loop of [_write] over the steps after the first. *)
Lemma loop_spec (later : list (base.Step Obs Act Ext)) acc h :
  Forall (step_ok h0 K) later → loop_inv h0 Ltd Lnsr acc h →
  ∃ h', for_each_step (_write_loop_body (Arr <$> Lnsr) sd) later (Arr <$> Ltd) h
          = Ok (Arr <$> Ltd, h') ∧
        loop_inv h0 Ltd Lnsr (λ a, foldl (acc_step g h0 a) (acc a) later) h'.
Proof.
  intros Hall. revert acc h. induction Hall as [|s later Hs _ IH]; intros acc h Hinv.
  - by exists h.
  - destruct (loop_body_spec s acc h Hs Hinv) as (h1 & Hrun & Hinv1).
    destruct (IH _ _ Hinv1) as (h2 & Hrun2 & Hinv2).
    exists h2. split; [|done]. simpl. by rewrite (io_bind_ok _ _ _ _ _ Hrun).
Qed.

End loop.

Lemma traverse_alloc_frame {A} (f : A → io value) (g : A → heap → ndarray)
    (m : gmap string A) (h0 : heap) :
  (∀ x h, f x h = Ok (Arr (fresh (dom h)), <[fresh (dom h) := g x h]> h)) →
  ∃ out h', tree.traverse f m h0 = Ok (out, h') ∧ h0 ⊆ h'.
Proof.
  intros Hf.
  destruct (traverse_spec f m (λ _ _ h, h0 ⊆ h) h0) as (out & h' & Hrun & HI); [done| |by eauto].
  intros k x m' out h _ _ _ Hext. eexists _, _. split; [apply Hf|].
  etrans; [exact Hext|]. apply insert_subseteq, not_elem_of_dom, is_fresh.
Qed.

Lemma subseteq_lookup_is_Some (h h' : heap) l :
  h ⊆ h' → is_Some (h !! l) → h' !! l = h !! l.
Proof. intros Hsub [x Hx]. rewrite Hx. by eapply lookup_weaken. Qed.

Lemma deref_subseteq (h h' : heap) v :
  value_allocated h v → h ⊆ h' → npops.deref h' v = npops.deref h v.
Proof.
  intros Hv Hsub. apply deref_frame; [done|]. intros l Hl. by apply subseteq_lookup_is_Some.
Qed.

Lemma map_structure2_run {A B C} (f : A → B → io C) (m1 : gmap string A)
    (m2 : gmap string B) h :
  dom m1 = dom m2 →
  tree.map_structure2 f m1 m2 h = tree.traverse (λ p, f p.1 p.2) (map_zip m1 m2) h.
Proof. intros H. unfold tree.map_structure2. by rewrite bind_assert_same_structure. Qed.

Section write.
Context {Obs Act Ext : Type}.
Context (zeros_like_act : Act → Act) (zeros_like_ext : Ext → Ext).

Lemma final_step_like_frame (s : base.Step Obs Act Ext) obs h :
  ∃ p h', utils.final_step_like zeros_like_act zeros_like_ext s obs h = Ok (p, h') ∧ h ⊆ h'.
Proof.
  unfold utils.final_step_like, tree.map_structure.
  destruct (traverse_alloc_frame npops.zeros_like
              (λ v h, mk_ndarray (dtype_of (npops.deref h v)) (S754_zero false))
              (base.rewards s) h)
    as (zr & h1 & Hrun1 & Hsub1); [done|].
  destruct (traverse_alloc_frame npops.zeros_like
              (λ v h, mk_ndarray (dtype_of (npops.deref h v)) (S754_zero false))
              (base.discounts s) h1)
    as (zd & h2 & Hrun2 & Hsub2); [done|].
  eexists _, h2. split; [|by etrans].
  rewrite (io_bind_ok _ _ _ _ _ Hrun1). by rewrite (io_bind_ok _ _ _ _ _ Hrun2).
Qed.

(** [_write] on a well-formed window gets to the priorities of the window
    without raising, whatever [utils.calculate_priorities] is; it returns
    when they do, and it then appends the transition of the window and
    creates one item per priority; every array that was allocated before
    the call is as it was. *)
Lemma _write_with_spec (self : ParallelNStepTransitionAdder Obs Act Ext) h s0 later :
  base._buffer (super self) = s0 :: later →
  window_ok h (s0 :: later) →
  ∃ h' placeholder,
    h ⊆ h' ∧
    (∀ p, _final_step_placeholder self = Some p → placeholder = p) ∧
    ∀ calculate_priorities,
      _write_with zeros_like_act zeros_like_ext calculate_priorities self h =
        (table_priorities ←
           calculate_priorities (base._priority_fns (super self))
             ((s0 :: later) ++
              [base._replace_observations placeholder (base._next_observations (super self))]);
         mret (mk_Adder (_discount self)
                 ((λ _, Scalar (_discount self)) <$> base.observations s0)
                 (Some placeholder)
                 (base.writer_calls
                    (base.append
                       (expected_transition (_discount self)
                          (base._next_observations (super self)) h s0 later)
                     :: map (λ tp : string * Qc, base.create_item tp.1 1 tp.2)
                          table_priorities)
                    (super self)))) h'.
Proof.
  intros Hbuf [Hobs Hall]. set (K := dom (base.discounts s0)) in *.
  assert (Hs0 := Forall_inv Hall). assert (Hlater := Forall_inv_tail Hall).
  destruct Hs0 as (_ & Hr0 & Har0 & Had0).
  assert (Har0' := rewards_or_zeros_allocated _ _ Har0).
  (* total_discount = tree.map_structure(np.copy, total_discount) *)
  destruct (traverse_alloc npops.copy (λ v h, npops.deref h v) (base.discounts s0) h)
    as (Ltd & h1 & Hrun1 & HdomTd & Hsub1 & HinjTd & HcellTd & Hdom1); [done|..].
  { intros a x h' Hx Hsub. apply deref_subseteq; [by apply (Had0 a)|done]. }
  (* n_step_return = tree.map_structure(copy of the broadcast, ..) *)
  destruct (traverse_alloc (λ p : value * value, npops.copy_broadcast p.1 p.2)
              (λ p h, npops.deref h p.1)
              (map_zip (rewards_or_zeros s0) (Arr <$> Ltd)) h1)
    as (Lnsr & h2 & Hrun2 & HdomNsr & Hsub2 & HinjNsr & HcellNsr & Hdom2); [done|..].
  { intros a [r t] h' Hx Hsub. apply map_lookup_zip_Some in Hx as [Hx _]. simpl in *.
    apply deref_subseteq; [|done]. specialize (Har0' a r Hx).
    destruct r as [l|]; simpl in *; [|done].
    by rewrite (subseteq_lookup_is_Some _ _ _ Hsub1 Har0'). }
  assert (HdomNsr' : dom Lnsr = K).
  { rewrite HdomNsr, dom_map_zip_with_L, dom_fmap_L, HdomTd, Hr0. apply (idemp_L (∩)). }
  (* the loop *)
  set (sd := (λ _ : Obs, Scalar (_discount self)) <$> base.observations s0).
  assert (Hdomsd : dom sd = K) by (unfold sd; by rewrite dom_fmap_L).
  assert (Hsd : ∀ a v, sd !! a = Some v → v = Scalar (_discount self)).
  { intros a v. unfold sd. rewrite lookup_fmap.
    destruct (_ !! a); simpl; [|done]. by intros [= <-]. }
  assert (HfreshTd : ∀ a l, Ltd !! a = Some l → h !! l = None).
  { intros a l Hl. by destruct (HcellTd a l Hl). }
  assert (HfreshNsr : ∀ a l, Lnsr !! a = Some l → h !! l = None).
  { intros a l Hl. destruct (HcellNsr a l Hl) as [Hnone _].
    destruct (h !! l) eqn:E; [|done]. eapply lookup_weaken in E; [|exact Hsub1]. congruence. }
  assert (Hdisj : ∀ a b l, Ltd !! a = Some l → Lnsr !! b = Some l → False).
  { intros a b l Ha Hb. destruct (HcellTd a l Ha) as (_ & x & _ & Hx).
    destruct (HcellNsr b l Hb) as [Hnone _]. congruence. }
  assert (Hinv2 : loop_inv h Ltd Lnsr (λ a, (reward_at h a s0, discount_at h a s0)) h2).
  { split; [|split].
    - intros l Hl. rewrite <- (subseteq_lookup_is_Some h h1 l Hsub1 Hl).
      apply subseteq_lookup_is_Some; [done|]. by rewrite (subseteq_lookup_is_Some h h1 l).
    - intros a l Hl. destruct (HcellTd a l Hl) as (_ & x & Hx & Hc).
      rewrite (lookup_weaken _ _ _ _ Hc Hsub2). simpl. unfold discount_at. by rewrite Hx.
    - intros a l Hl. destruct (HcellNsr a l Hl) as (_ & [r t] & Hx & Hc).
      apply map_lookup_zip_Some in Hx as [Hx _]. simpl in *.
      rewrite Hc. unfold reward_at. rewrite Hx. simpl. f_equal.
      apply deref_subseteq; [by apply (Har0' a)|done]. }
  destruct (loop_spec h K (_discount self) Ltd Lnsr sd HdomTd HdomNsr' Hdomsd Hsd
              HinjTd HinjNsr HfreshTd HfreshNsr Hdisj later _ h2 Hlater Hinv2)
    as (h3 & Hrun3 & Hfr3 & Htd3 & Hnsr3).
  (* the final step and the priorities *)
  assert (∃ placeholder h4,
    match _final_step_placeholder self with
    | None => utils.final_step_like zeros_like_act zeros_like_ext s0
                (base._next_observations (super self))
    | Some p => mret p
    end h3 = Ok (placeholder, h4) ∧ h3 ⊆ h4 ∧
    ∀ p, _final_step_placeholder self = Some p → placeholder = p)
    as (placeholder & h4 & Hrun4 & Hsub4 & Hcached).
  { destruct (_final_step_placeholder self) as [p|].
    - exists p, h3. split_and!; [done..|]. by intros ? [= <-].
    - destruct (final_step_like_frame s0 (base._next_observations (super self)) h3)
        as (p & h4 & Hrun4 & Hsub4).
      by exists p, h4. }
  exists h4, placeholder. split; [|split; [exact Hcached|]].
  - etrans; [|exact Hsub4]. apply map_subseteq_spec. intros l x Hx.
    by rewrite (Hfr3 l (mk_is_Some _ _ Hx)).
  - intros calculate_priorities. unfold _write_with. rewrite Hbuf.
    rewrite (io_bind_ok _ _ _ _ _
      (broadcast_structures_ok (rewards_or_zeros s0) (base.discounts s0)
         ((λ _, Scalar (_discount self)) <$> base.observations s0) h
         ltac:(by rewrite Hr0) ltac:(by rewrite dom_fmap_L, Hobs))).
    unfold tree.map_structure. rewrite (io_bind_ok _ _ _ _ _ Hrun1).
    rewrite <- map_structure2_run in Hrun2 by (by rewrite dom_fmap_L, HdomTd, Hr0).
    rewrite (io_bind_ok _ _ _ _ _ Hrun2).
    rewrite (io_bind_ok _ _ _ _ _ Hrun3).
    unfold serialise at 1. unfold mbind at 1, io_bind at 1.
    unfold serialise at 1. unfold mbind at 1, io_bind at 1.
    rewrite (io_bind_ok _ _ _ _ _ Hrun4).
    assert (npops.deref h3 <$> (Arr <$> Lnsr) =
            map_imap (λ a _, Some (accumulate (_discount self) h a s0 later).1)
              (base.discounts s0)) as ->.
    { apply map_eq. intros a. rewrite map_lookup_imap, !lookup_fmap.
      destruct (Lnsr !! a) as [l|] eqn:El; simpl.
      - assert (is_Some (base.discounts s0 !! a)) as [v ->].
        { apply elem_of_dom. fold K. rewrite <- HdomNsr'. by apply elem_of_dom. }
        simpl. by rewrite (Hnsr3 a l El).
      - assert (base.discounts s0 !! a = None) as ->; [|done].
        apply not_elem_of_dom. fold K. rewrite <- HdomNsr'. by apply not_elem_of_dom. }
    assert (npops.deref h3 <$> (Arr <$> Ltd) =
            map_imap (λ a _, Some (accumulate (_discount self) h a s0 later).2)
              (base.discounts s0)) as ->.
    { apply map_eq. intros a. rewrite map_lookup_imap, !lookup_fmap.
      destruct (Ltd !! a) as [l|] eqn:El; simpl.
      - assert (is_Some (base.discounts s0 !! a)) as [v ->].
        { apply elem_of_dom. rewrite <- HdomTd. by apply elem_of_dom. }
        simpl. by rewrite (Htd3 a l El).
      - assert (base.discounts s0 !! a = None) as ->; [|done].
        apply not_elem_of_dom. rewrite <- HdomTd. by apply not_elem_of_dom. }
    reflexivity.
Qed.

(** [_write] on a well-formed window returns, appends the transition of the
    window and one item per priority table, and leaves every array that
    was allocated before the call as it was. *)
Lemma _write_spec (self : ParallelNStepTransitionAdder Obs Act Ext) h s0 later :
  base._buffer (super self) = s0 :: later →
  window_ok h (s0 :: later) →
  ∃ h' placeholder calls,
    _write zeros_like_act zeros_like_ext self h =
      Ok (mk_Adder (_discount self)
            ((λ _, Scalar (_discount self)) <$> base.observations s0)
            (Some placeholder)
            (base.writer_calls
               (base.append
                  (expected_transition (_discount self)
                     (base._next_observations (super self)) h s0 later)
                :: map (λ tp : string * Qc, base.create_item tp.1 1 tp.2) calls)
               (super self)), h') ∧
    length calls = length (base._priority_fns (super self)) ∧
    h ⊆ h'.
Proof.
  intros Hbuf Hok.
  destruct (_write_with_spec self h s0 later Hbuf Hok) as (h' & placeholder & Hsub & _ & Hrun).
  eexists h', placeholder, _. split; [|split; [|exact Hsub]].
  - unfold _write. rewrite Hrun. reflexivity.
  - by rewrite length_map.
Qed.
End write.

(** ** The accumulators of the loop *)

Lemma dtype_of_astype d x : dtype_of (astype d x) = d.
Proof. by destruct x as [[] ?], d. Qed.

Lemma dtype_of_multiply_into x y : dtype_of (multiply_into x y) = dtype_of x.
Proof. apply dtype_of_astype. Qed.

Lemma dtype_of_add_into x y : dtype_of (add_into x y) = dtype_of x.
Proof. apply dtype_of_astype. Qed.








Section accumulate.
Context {Obs Act Ext : Type}.
Local Abbreviation Step := (base.Step Obs Act Ext).

(** The order of the loop: the accumulators start at the reward and the
    discount of the first step, and every later step multiplies g into the
    running discount, adds its reward times the running discount to the
    return, and then multiplies its own discount into the running
    discount. *)
Lemma accumulate_nil g h a (s0 : Step) :
  accumulate g h a s0 [] = (reward_at h a s0, discount_at h a s0).
Proof. reflexivity. Qed.

Lemma accumulate_snoc g h a (s0 : Step) (later : list Step) (s : Step) :
  accumulate g h a s0 (later ++ [s]) =
    let acc := accumulate g h a s0 later in
    let total_discount := multiply_into acc.2 g in
    (add_into acc.1 (multiply (reward_at h a s) total_discount),
     multiply_into total_discount (discount_at h a s)).
Proof. unfold accumulate. by rewrite foldl_app. Qed.


Lemma foldl_acc_step_dtype g h a (acc : ndarray * ndarray) (later : list Step) :
  dtype_of (foldl (acc_step g h a) acc later).1 = dtype_of acc.1 ∧
  dtype_of (foldl (acc_step g h a) acc later).2 = dtype_of acc.2.
Proof.
  revert acc. induction later as [|s later IH]; intros acc; [done|]. simpl.
  destruct (IH (acc_step g h a acc s)) as [-> ->]. unfold acc_step. simpl.
  by rewrite dtype_of_add_into, !dtype_of_multiply_into.
Qed.

(** The running discount does not depend on the rewards. *)
Lemma foldl_acc_step_snd g h a (acc : ndarray * ndarray) (later : list Step) :
  (foldl (acc_step g h a) acc later).2 =
    foldl (λ td d, multiply_into (multiply_into td g) d) acc.2 (discount_at h a <$> later).
Proof.
  revert acc. induction later as [|s later IH]; intros acc; [done|]. simpl. by rewrite IH.
Qed.


End accumulate.

(** ** The drain *)

Section drain.
Context {Obs Act Ext : Type}.
Context (zeros_like_act : Act → Act) (zeros_like_ext : Ext → Ext).
Local Abbreviation Step := (base.Step Obs Act Ext).

Lemma allocated_subseteq (h h' : heap) (m : gmap string value) :
  h ⊆ h' → allocated h m → allocated h' m.
Proof.
  intros Hsub Hm a v Hv. specialize (Hm a v Hv). destruct v as [l|]; simpl in *; [|done].
  destruct Hm as [x Hx]. exists x. by eapply lookup_weaken.
Qed.

Lemma step_ok_subseteq (h h' : heap) K (s : Step) :
  h ⊆ h' → step_ok h K s → step_ok h' K s.
Proof. intros Hsub (? & ? & ? & ?). split_and!; eauto using allocated_subseteq. Qed.

Lemma window_ok_subseteq (h h' : heap) (w : list Step) :
  h ⊆ h' → window_ok h w → window_ok h' w.
Proof.
  intros Hsub. destruct w as [|s0 later]; [done|]. intros [Hobs Hall]. split; [done|].
  eapply Forall_impl; [exact Hall|]. intros s. by apply step_ok_subseteq.
Qed.

Lemma reward_at_subseteq (h h' : heap) K a (s : Step) :
  h ⊆ h' → step_ok h K s → reward_at h' a s = reward_at h a s.
Proof.
  intros Hsub (_ & _ & Hr & _). unfold reward_at.
  pose proof (rewards_or_zeros_allocated _ _ Hr) as Hr'.
  destruct (rewards_or_zeros s !! a) as [v|] eqn:E; simpl; [|done].
  apply deref_subseteq; [|done]. by apply (Hr' a).
Qed.

Lemma discount_at_subseteq (h h' : heap) K a (s : Step) :
  h ⊆ h' → step_ok h K s → discount_at h' a s = discount_at h a s.
Proof.
  intros Hsub (_ & _ & _ & Hd). unfold discount_at.
  destruct (base.discounts s !! a) as [v|] eqn:E; simpl; [|done].
  apply deref_subseteq; [|done]. by apply (Hd a).
Qed.

Lemma accumulate_subseteq g (h h' : heap) a (s0 : Step) later :
  h ⊆ h' → window_ok h (s0 :: later) →
  accumulate g h' a s0 later = accumulate g h a s0 later.
Proof.
  intros Hsub [_ Hall]. unfold accumulate.
  rewrite (reward_at_subseteq h h' _ a s0 Hsub (Forall_inv Hall)).
  rewrite (discount_at_subseteq h h' _ a s0 Hsub (Forall_inv Hall)).
  apply Forall_inv_tail in Hall.
  generalize (reward_at h a s0, discount_at h a s0).
  induction Hall as [|s later Hs _ IH]; intros acc; [done|]. simpl.
  unfold acc_step at 2 4.
  rewrite (reward_at_subseteq h h' _ a s Hsub Hs), (discount_at_subseteq h h' _ a s Hsub Hs).
  apply IH.
Qed.

Lemma expected_transition_subseteq g obs (h h' : heap) (s0 : Step) later :
  h ⊆ h' → window_ok h (s0 :: later) →
  expected_transition g obs h' s0 later = expected_transition g obs h s0 later.
Proof.
  intros Hsub Hok. unfold expected_transition. f_equal.
  - apply map_eq. intros a. rewrite !map_lookup_imap.
    destruct (_ !! a); simpl; [|done].
    by rewrite (accumulate_subseteq _ h h' _ _ _ Hsub Hok).
  - apply map_eq. intros a. rewrite !map_lookup_imap.
    destruct (_ !! a); simpl; [|done].
    by rewrite (accumulate_subseteq _ h h' _ _ _ Hsub Hok).
Qed.

Lemma transitions_app (l1 l2 : list (base.writer_call Obs Act Ext)) :
  transitions (l1 ++ l2) = transitions l1 ++ transitions l2.
Proof. apply omap_app. Qed.

Lemma transitions_create_items (calls : list (string * Qc)) :
  transitions (Obs:=Obs) (Act:=Act) (Ext:=Ext)
    (map (λ tp, base.create_item tp.1 1 tp.2) calls) = [].
Proof. induction calls as [|c calls IH]; [done|]. simpl. exact IH. Qed.

(** The loop of [_write_last]. *)
Lemma _write_last_loop_spec (rest : list Step) :
  ∀ (self : ParallelNStepTransitionAdder Obs Act Ext) h,
    base._buffer (super self) = rest → drain_ok h rest →
    ∃ self' h',
      _write_last_loop zeros_like_act zeros_like_ext (length rest) self h = Ok (self', h') ∧
      h ⊆ h' ∧
      base._buffer (super self') = [] ∧
      transitions (base._writer (super self')) =
        transitions (base._writer (super self)) ++
        ((λ w, expected_transition (_discount self)
                 (base._next_observations (super self)) h w.1 w.2) <$> windows rest).
Proof.
  induction rest as [|s rest IH]; intros self h Hbuf Hok.
  - exists self, h. simpl. rewrite Hbuf. split_and!; try done. by rewrite app_nil_r.
  - apply Forall_cons in Hok as [Hw Hrest]. simpl in Hw.
    destruct (_write_spec zeros_like_act zeros_like_ext self h s rest Hbuf Hw)
      as (h1 & placeholder & calls & Hrun & _ & Hsub1).
    set (self1 := mk_Adder _ _ _ _) in Hrun.
    assert (Hpop : popleft self1 h1 =
                   Ok (mk_Adder (_discount self1) (_discounts self1)
                         (_final_step_placeholder self1)
                         (base.mk_ReverbParallelAdder rest
                            (base._buffer_size (super self1))
                            (base._max_sequence_length (super self1))
                            (base._priority_fns (super self1))
                            (base._next_observations (super self1))
                            (base._writer (super self1))), h1)).
    { unfold popleft, base.popleft. simpl. by rewrite Hbuf. }
    set (self2 := mk_Adder _ _ _ _) in Hpop.
    destruct (IH self2 h1 eq_refl) as (self' & h' & Hloop & Hsub2 & Hempty & Htr).
    { eapply Forall_impl; [exact Hrest|]. intros w. by apply window_ok_subseteq. }
    exists self', h'. split_and!.
    + cbn [length _write_last_loop]. rewrite Hbuf.
      rewrite (io_bind_ok _ _ _ _ _ Hrun). by rewrite (io_bind_ok _ _ _ _ _ Hpop).
    + by etrans.
    + done.
    + rewrite Htr. simpl. rewrite transitions_app. simpl.
      rewrite transitions_create_items. rewrite <- app_assoc. simpl. do 2 f_equal.
      apply Forall_fmap_ext_1. eapply Forall_impl; [exact Hrest|].
      intros w Hwok. by apply expected_transition_subseteq.
Qed.
End drain.

(** ** The claims about the adder *)

Section claims.
Context {Obs Act Ext : Type}.
Context (zeros_like_act : Act → Act) (zeros_like_ext : Ext → Ext).
Local Abbreviation Step := (base.Step Obs Act Ext).
Local Abbreviation Adder := (ParallelNStepTransitionAdder Obs Act Ext).

(** C1, as amended. For every write call on a well-formed window
    [s0 :: later], with accumulator discount g, the call returns and the
    n_step_return of the emitted transition is, for every agent, the
    result of the loop in floating point: it starts at reward(s0), with
    the running discount at discount(s0), and every later step multiplies
    g into the running discount, adds reward(s_i) times the running
    discount, and then multiplies discount(s_i) into the running discount.
    Every product and sum is rounded, so the return has the dtype of the
    first reward and is the closed form
    reward(s0) + sum of g^i * discount(s0) * ... * discount(s_{i-1}) * reward(s_i)
    only up to rounding. *)
Theorem write_n_step_return (self : Adder) h (s0 : Step) later :
  base._buffer (super self) = s0 :: later →
  window_ok h (s0 :: later) →
  ∃ self' h' t calls,
    _write zeros_like_act zeros_like_ext self h = Ok (self', h') ∧
    base._writer (super self') = base._writer (super self) ++ base.append t :: calls ∧
    ∀ a, a ∈ dom (base.discounts s0) →
      ∃ accumulators : list Step → ndarray * ndarray,
        accumulators [] = (reward_at h a s0, discount_at h a s0) ∧
        (∀ steps s,
           accumulators (steps ++ [s]) =
             let n_step_return := (accumulators steps).1 in
             let total_discount := multiply_into (accumulators steps).2 (_discount self) in
             (add_into n_step_return (multiply (reward_at h a s) total_discount),
              multiply_into total_discount (discount_at h a s))) ∧
        base.t_n_step_return t !! a = Some (accumulators later).1 ∧
        dtype_of (accumulators later).1 = dtype_of (reward_at h a s0).
Proof.
  intros Hbuf Hok.
  destruct (_write_spec zeros_like_act zeros_like_ext self h s0 later Hbuf Hok)
    as (h' & placeholder & calls & Hrun & _ & _).
  eexists _, h', _, _. split; [exact Hrun|]. split; [reflexivity|].
  intros a Ha. exists (accumulate (_discount self) h a s0). split; [reflexivity|]. split.
  { intros steps s. apply accumulate_snoc. }
  split.
  - cbn [base.t_n_step_return expected_transition].
    rewrite map_lookup_imap. by apply elem_of_dom in Ha as [v ->].
  - unfold accumulate. by destruct (foldl_acc_step_dtype (_discount self) h a
      (reward_at h a s0, discount_at h a s0) later) as [-> _].
Qed.


(** The behaviour of [_write_last] on a well-formed buffer. *)
Lemma _write_last_spec (self : Adder) h (s0 : Step) rest :
  base._buffer (super self) = s0 :: rest →
  drain_ok h rest →
  ∃ self' h',
    _write_last zeros_like_act zeros_like_ext self h = Ok (self', h') ∧
    h ⊆ h' ∧
    base._buffer (super self') = [] ∧
    transitions (base._writer (super self')) =
      transitions (base._writer (super self)) ++
      ((λ w, expected_transition (_discount self)
               (base._next_observations (super self)) h w.1 w.2) <$> windows rest).
Proof.
  intros Hbuf Hok. unfold _write_last.
  assert (Hpop : popleft self h =
                 Ok (mk_Adder (_discount self) (_discounts self)
                       (_final_step_placeholder self)
                       (base.mk_ReverbParallelAdder rest
                          (base._buffer_size (super self))
                          (base._max_sequence_length (super self))
                          (base._priority_fns (super self))
                          (base._next_observations (super self))
                          (base._writer (super self))), h)).
  { unfold popleft, base.popleft. by rewrite Hbuf. }
  set (self1 := mk_Adder _ _ _ _) in Hpop.
  destruct (_write_last_loop_spec zeros_like_act zeros_like_ext rest self1 h eq_refl Hok)
    as (self' & h' & Hloop & Hsub & Hempty & Htr).
  exists self', h'. split_and!; try done.
  by rewrite (io_bind_ok _ _ _ _ _ Hpop).
Qed.

Lemma windows_lengths (steps : list Step) :
  (λ w, length (w.1 :: w.2)) <$> windows steps = reverse (seq 1 (length steps)).
Proof.
  induction steps as [|s steps IH]; [done|].
  cbn [windows]. rewrite fmap_cons, IH. cbn [fst snd length].
  rewrite seq_S, reverse_app. reflexivity.
Qed.

(** C2, as amended. For a write call over a single-step window, the
    emitted transition has, for every agent, n_step_return equal to the
    reward of the step and total_discount equal to the environment
    discount of the step: the accumulator discount is not applied. *)
Theorem write_single_step (self : Adder) h (s0 : Step) :
  base._buffer (super self) = [s0] →
  window_ok h [s0] →
  ∃ self' h' t calls,
    _write zeros_like_act zeros_like_ext self h = Ok (self', h') ∧
    base._writer (super self') = base._writer (super self) ++ base.append t :: calls ∧
    ∀ a, a ∈ dom (base.discounts s0) →
      base.t_n_step_return t !! a = Some (reward_at h a s0) ∧
      base.t_total_discount t !! a = Some (discount_at h a s0).
Proof.
  intros Hbuf Hok.
  destruct (_write_spec zeros_like_act zeros_like_ext self h s0 [] Hbuf Hok)
    as (h' & placeholder & calls & Hrun & _ & _).
  eexists _, h', _, _. split; [exact Hrun|]. split; [reflexivity|].
  intros a Ha. cbn [base.t_n_step_return base.t_total_discount expected_transition].
  rewrite !map_lookup_imap. apply elem_of_dom in Ha as [v ->]. done.
Qed.

(** C3, as amended. [_write_last] removes the front step without writing
    it, and then writes, front to back, the window that starts at each
    remaining step, until the buffer is empty: for a buffer of m steps the
    m-1 windows of lengths m-1, ..., 1, each remaining step being the first
    step of exactly one of them. *)
Theorem write_last_drains (self : Adder) h (s0 : Step) rest :
  base._buffer (super self) = s0 :: rest →
  drain_ok h rest →
  ∃ self' h',
    _write_last zeros_like_act zeros_like_ext self h = Ok (self', h') ∧
    base._buffer (super self') = [] ∧
    transitions (base._writer (super self')) =
      transitions (base._writer (super self)) ++
      ((λ w, expected_transition (_discount self)
               (base._next_observations (super self)) h w.1 w.2) <$> windows rest) ∧
    (λ w, length (w.1 :: w.2)) <$> windows rest = reverse (seq 1 (length rest)).
Proof.
  intros Hbuf Hok.
  destruct (_write_last_spec self h s0 rest Hbuf Hok) as (self' & h' & Hrun & _ & He & Ht).
  exists self', h'. split_and!; try done. apply windows_lengths.
Qed.

(** C5, as amended. If the step at position [i] of a well-formed window has
    an empty reward mapping, the write call gets to the priorities of the
    window without raising: whatever [utils.calculate_priorities] is, the
    call raises only if the priorities raise, and otherwise returns with
    the transition [t] appended. For every agent of the discount mapping
    of that step the reward taken is the float32 scalar zero (whatever
    the dtype of the discount), and the accumulation proceeds with it: the
    n_step_return of [t] is the result of the loop with this reward at
    position [i]. *)
Theorem write_empty_rewards (self : Adder) h (s0 : Step) later (i : nat) (s : Step) :
  base._buffer (super self) = s0 :: later →
  window_ok h (s0 :: later) →
  (s0 :: later) !! i = Some s →
  is_empty (base.rewards s) = true →
  ∃ t placeholder h',
    h ⊆ h' ∧
    (∀ calculate_priorities,
       _write_with zeros_like_act zeros_like_ext calculate_priorities self h =
         (table_priorities ←
            calculate_priorities (base._priority_fns (super self))
              ((s0 :: later) ++
               [base._replace_observations placeholder
                  (base._next_observations (super self))]);
          mret (mk_Adder (_discount self)
                  ((λ _, Scalar (_discount self)) <$> base.observations s0)
                  (Some placeholder)
                  (base.writer_calls
                     (base.append t ::
                      map (λ tp : string * Qc, base.create_item tp.1 1 tp.2)
                        table_priorities)
                     (super self)))) h') ∧
    ∀ a, a ∈ dom (base.discounts s) →
      rewards_or_zeros s !! a = Some (Scalar float32_zero) ∧
      reward_at h a s = float32_zero ∧
      base.t_n_step_return t !! a = Some (accumulate (_discount self) h a s0 later).1.
Proof.
  intros Hbuf Hok Hi Hempty.
  destruct (_write_with_spec zeros_like_act zeros_like_ext self h s0 later Hbuf Hok)
    as (h' & placeholder & Hsub & _ & Hrun).
  eexists _, placeholder, h'. split; [exact Hsub|]. split; [exact Hrun|].
  intros a Ha.
  assert (Hzero : rewards_or_zeros s !! a = Some (Scalar float32_zero)).
  { unfold rewards_or_zeros. rewrite Hempty, lookup_fmap.
    apply elem_of_dom in Ha as [v ->]. done. }
  split; [exact Hzero|]. split.
  - unfold reward_at. by rewrite Hzero.
  - destruct Hok as [_ Hall]. destruct (Forall_lookup_1 _ _ _ _ Hall Hi) as (Hd & _).
    rewrite Hd in Ha. cbn [base.t_n_step_return expected_transition].
    rewrite map_lookup_imap. by apply elem_of_dom in Ha as [v ->].
Qed.

(** C6. The transition a write call emits takes its observations, actions
    and extras from the first step of the window (the extras component is
    absent when those of the first step are empty), and its
    next_observations are the arrival observations of the adder. *)
Theorem write_takes_first_step (self : Adder) h (s0 : Step) later :
  base._buffer (super self) = s0 :: later →
  window_ok h (s0 :: later) →
  ∃ self' h' t calls,
    _write zeros_like_act zeros_like_ext self h = Ok (self', h') ∧
    base._writer (super self') = base._writer (super self) ++ base.append t :: calls ∧
    base.t_observations t = base.observations s0 ∧
    base.t_actions t = base.actions s0 ∧
    base.t_next_observations t = base._next_observations (super self) ∧
    base.t_extras t = (if is_empty (base.extras s0) then None else Some (base.extras s0)).
Proof.
  intros Hbuf Hok.
  destruct (_write_spec zeros_like_act zeros_like_ext self h s0 later Hbuf Hok)
    as (h' & placeholder & calls & Hrun & _ & _).
  eexists _, h', _, _. split; [exact Hrun|]. by split_and!.
Qed.

(** C10. A write call leaves the buffer and the arrays of the buffered
    steps as they were: every array allocated before the call has the
    same content after it, so the rewards and discounts of every buffered
    step read the same. *)
Theorem write_preserves_buffer (self : Adder) h (s0 : Step) later :
  base._buffer (super self) = s0 :: later →
  window_ok h (s0 :: later) →
  ∃ self' h',
    _write zeros_like_act zeros_like_ext self h = Ok (self', h') ∧
    base._buffer (super self') = base._buffer (super self) ∧
    h ⊆ h' ∧
    ∀ s, s ∈ s0 :: later →
      (∀ a v, base.rewards s !! a = Some v → npops.deref h' v = npops.deref h v) ∧
      (∀ a v, base.discounts s !! a = Some v → npops.deref h' v = npops.deref h v).
Proof.
  intros Hbuf Hok.
  destruct (_write_spec zeros_like_act zeros_like_ext self h s0 later Hbuf Hok)
    as (h' & placeholder & calls & Hrun & _ & Hsub).
  eexists _, h'. split; [exact Hrun|]. split; [done|]. split; [done|].
  intros s Hs. destruct Hok as [_ Hall].
  rewrite Forall_forall in Hall. destruct (Hall s Hs) as (_ & _ & Hr & Hd).
  split; intros a v Hv; (apply deref_subseteq; [|done]).
  - by apply (Hr a).
  - by apply (Hd a).
Qed.

(** C4. Constructing the adder with an n_step below 1 fails with
    ValueError (the check is that of the constructor of the base adder, as
    the specification states it). *)
Theorem init_rejects_n_step_below_1 (n_step : Z) (discount : py_float)
    (priority_fns : list (string * base.PriorityFn Obs Act Ext)) :
  (n_step < 1)%Z →
  __init__ n_step discount priority_fns = Raise ValueError.
Proof.
  intros Hn. unfold __init__, base.__init__. by rewrite bool_decide_eq_true_2.
Qed.

End claims.

(** The window of float32 rewards [1,2,3] and discounts [1,1,0] with
    g = np.float32(0.9): the n_step_return is the float32 value
    10968104 * 2^-21. *)
Lemma write_n_step_return_witness :
  ∃ self' h' t calls,
    _write examples.zl examples.zl (examples.adder 0.9 examples.buffer123) examples.heap123
      = Ok (self', h') ∧
    base._writer (super self') = base.append t :: calls ∧
    base.t_n_step_return t !! "a0" =
      Some (mk_ndarray float32 (S754_finite false 10968104 (-21))).
Proof.
  destruct (write_n_step_return examples.zl examples.zl
              (examples.adder 0.9 examples.buffer123) examples.heap123
              (examples.step 10 1 4 5) [examples.step 11 2 5 9; examples.step 12 3 6 7]
              eq_refl)
    as (self' & h' & t & calls & Hrun & Hw & Hn).
  { apply (bool_decide_unpack _). vm_compute. exact I. }
  exists self', h', t, calls. split; [exact Hrun|]. split; [exact Hw|].
  destruct (Hn "a0") as (acc & H0 & Hstep & Ht & _).
  { apply (bool_decide_unpack _). vm_compute. exact I. }
  rewrite Ht. f_equal.
  pose proof (Hstep [examples.step 11 2 5 9] (examples.step 12 3 6 7)) as H2.
  pose proof (Hstep [] (examples.step 11 2 5 9)) as H1.
  cbn [app] in H1, H2. rewrite H2, H1, H0. vm_compute. reflexivity.
Defined.

(** The example of the specification: float32 rewards [1,2,3] and
    discounts [1,1,0] with g = 0.9. The n_step_return written is the
    number 1371013/262144 = 5.2299995..., and neither
    1 + 0.9*1*2 + 0.9^2*1*1*3 = 5.23 nor the same closed form at the
    float32 value of g. *)
Lemma write_n_step_return_counterexample :
  ∃ self' h' t calls,
    _write examples.zl examples.zl (examples.adder 0.9 examples.buffer123) examples.heap123
      = Ok (self', h') ∧
    base._writer (super self') = base.append t :: calls ∧
    to_Q ∘ item <$> base.t_n_step_return t !! "a0" = Some (Some (1371013 # 262144)) ∧
    n_step_return_formula (Q2Qc 0.9) [Q2Qc 1; Q2Qc 2; Q2Qc 3] [Q2Qc 1; Q2Qc 1; Q2Qc 0]
      = Q2Qc 5.23 ∧
    Q2Qc (1371013 # 262144) ≠ Q2Qc 5.23 ∧
    to_Q (item (_discount (examples.adder 0.9 examples.buffer123)))
      = Some (7549747 # 8388608) ∧
    Q2Qc (1371013 # 262144) ≠
      n_step_return_formula (Q2Qc (7549747 # 8388608))
        [Q2Qc 1; Q2Qc 2; Q2Qc 3] [Q2Qc 1; Q2Qc 1; Q2Qc 0].
Proof.
  destruct (_write_spec examples.zl examples.zl
              (examples.adder 0.9 examples.buffer123) examples.heap123
              (examples.step 10 1 4 5) [examples.step 11 2 5 9; examples.step 12 3 6 7]
              eq_refl)
    as (h' & placeholder & calls & Hrun & _ & _).
  { apply (bool_decide_unpack _). vm_compute. exact I. }
  eexists _, h', _, _. split; [exact Hrun|]. split; [reflexivity|].
  split; [|split; [|split; [|split]]].
  - vm_compute. reflexivity.
  - apply Qc_is_canon. vm_compute. reflexivity.
  - intros H. apply (f_equal this) in H. vm_compute in H. discriminate.
  - vm_compute. reflexivity.
  - intros H. apply (f_equal this) in H. vm_compute in H. discriminate.
Qed.

(** One step of reward 1 and discount 1/2, with g = 0.9. *)
Lemma write_single_step_witness :
  ∃ self' h' t calls,
    _write examples.zl examples.zl (examples.adder 0.9 examples.buffer1) examples.heap1
      = Ok (self', h') ∧
    base._writer (super self') = base.append t :: calls ∧
    base.t_n_step_return t !! "a0" = Some (examples.f32 1) ∧
    base.t_total_discount t !! "a0" = Some (examples.f32 0.5).
Proof.
  destruct (write_single_step examples.zl examples.zl
              (examples.adder 0.9 examples.buffer1) examples.heap1
              (examples.step 10 1 2 5) eq_refl)
    as (self' & h' & t & calls & Hrun & Hw & Hn).
  { apply (bool_decide_unpack _). vm_compute. exact I. }
  exists self', h', t, calls. split; [exact Hrun|]. split; [exact Hw|].
  apply (Hn "a0"). apply (bool_decide_unpack _). vm_compute. exact I.
Defined.

(** One step of reward 1 and discount 1/2, with g = 0.9: the total_discount
    of the transition is 1/2, the discount of the step, and not 0.9. *)
Lemma write_single_step_counterexample :
  ∃ self' h' t calls,
    _write examples.zl examples.zl (examples.adder 0.9 examples.buffer1) examples.heap1
      = Ok (self', h') ∧
    base._writer (super self') = base.append t :: calls ∧
    _discount (examples.adder 0.9 examples.buffer1) = examples.f32 0.9 ∧
    base.t_total_discount t !! "a0" = Some (examples.f32 0.5) ∧
    examples.f32 0.5 ≠ examples.f32 0.9.
Proof.
  destruct (_write_spec examples.zl examples.zl
              (examples.adder 0.9 examples.buffer1) examples.heap1
              (examples.step 10 1 2 5) [] eq_refl)
    as (h' & placeholder & calls & Hrun & _ & _).
  { apply (bool_decide_unpack _). vm_compute. exact I. }
  eexists _, h', _, _. split; [exact Hrun|]. split; [reflexivity|].
  split; [reflexivity|]. split; [reflexivity|].
  intros H. vm_compute in H. discriminate.
Qed.

(** A full buffer of three steps (N = 3): the drain writes two transitions,
    of the windows of lengths 2 and 1. *)
Lemma write_last_drains_witness :
  ∃ self' h',
    _write_last examples.zl examples.zl (examples.adder 0.9 examples.buffer123)
      examples.heap123 = Ok (self', h') ∧
    base._buffer (super self') = [] ∧
    length (transitions (base._writer (super self'))) = 2%nat ∧
    (λ w : base.Step Z Z Z * list (base.Step Z Z Z), length (w.1 :: w.2))
      <$> windows (tail examples.buffer123) = [2; 1]%nat.
Proof.
  destruct (write_last_drains examples.zl examples.zl
              (examples.adder 0.9 examples.buffer123) examples.heap123
              (examples.step 10 1 4 5) (tail examples.buffer123) eq_refl)
    as (self' & h' & Hrun & Hempty & Htr & Hlen).
  { apply (bool_decide_unpack _). vm_compute. exact I. }
  exists self', h'. split; [exact Hrun|]. split; [exact Hempty|].
  split; [by rewrite Htr|exact Hlen].
Defined.

(** A full buffer of three steps (N = 3), of observations 10, 11 and 12: the
    drain writes two transitions, whose sources are the steps of
    observations 11 and 12; it writes none for the front step. *)
Lemma write_last_drains_counterexample :
  ∃ self' h',
    _write_last examples.zl examples.zl (examples.adder 0.9 examples.buffer123)
      examples.heap123 = Ok (self', h') ∧
    length examples.buffer123 = 3%nat ∧
    base.t_observations <$> transitions (base._writer (super self')) =
      [ {["a0" := 11%Z]}; {["a0" := 12%Z]} ].
Proof.
  destruct (_write_last_spec examples.zl examples.zl
              (examples.adder 0.9 examples.buffer123) examples.heap123
              (examples.step 10 1 4 5) (tail examples.buffer123) eq_refl)
    as (self' & h' & Hrun & _ & _ & Htr).
  { apply (bool_decide_unpack _). vm_compute. exact I. }
  exists self', h'. split; [exact Hrun|]. split; [reflexivity|]. by rewrite Htr.
Qed.

(** Two steps with an empty reward mapping and float64 discounts: the
    reward taken at the second step is the float32 zero, and the
    n_step_return is the float32 zero. *)
Lemma write_empty_rewards_witness :
  ∃ self' h' t calls,
    _write examples.zl examples.zl (examples.adder 0.9 examples.buffer64) examples.heap64
      = Ok (self', h') ∧
    base._writer (super self') = base.append t :: calls ∧
    rewards_or_zeros (examples.step_no_reward 11 2) !! "a0" = Some (Scalar float32_zero) ∧
    base.t_n_step_return t !! "a0" = Some float32_zero.
Proof.
  destruct (write_empty_rewards examples.zl examples.zl
              (examples.adder 0.9 examples.buffer64) examples.heap64
              (examples.step_no_reward 10 1) [examples.step_no_reward 11 2]
              1 (examples.step_no_reward 11 2) eq_refl)
    as (t & placeholder & h' & _ & Hrun & Hn); [|reflexivity|reflexivity|].
  { apply (bool_decide_unpack _). vm_compute. exact I. }
  eexists _, h', t, _. split; [unfold _write; rewrite Hrun; reflexivity|].
  split; [reflexivity|].
  destruct (Hn "a0") as (Hz & _ & Hf).
  { apply (bool_decide_unpack _). vm_compute. exact I. }
  split; [exact Hz|]. rewrite Hf. vm_compute. reflexivity.
Defined.

(** Two steps with an empty reward mapping and float64 discounts: the
    reward taken for the agent, and the n_step_return, are float32. *)
Lemma write_empty_rewards_counterexample :
  ∃ self' h' t calls,
    _write examples.zl examples.zl (examples.adder 0.9 examples.buffer64) examples.heap64
      = Ok (self', h') ∧
    base._writer (super self') = base.append t :: calls ∧
    dtype_of (discount_at examples.heap64 "a0" (examples.step_no_reward 11 2)) = float64 ∧
    dtype_of (reward_at examples.heap64 "a0" (examples.step_no_reward 11 2)) = float32 ∧
    dtype_of <$> base.t_n_step_return t !! "a0" = Some float32 ∧
    dtype_of <$> base.t_total_discount t !! "a0" = Some float64.
Proof.
  destruct (_write_spec examples.zl examples.zl
              (examples.adder 0.9 examples.buffer64) examples.heap64
              (examples.step_no_reward 10 1) [examples.step_no_reward 11 2] eq_refl)
    as (h' & placeholder & calls & Hrun & _ & _).
  { apply (bool_decide_unpack _). vm_compute. exact I. }
  eexists _, h', _, _. split; [exact Hrun|]. split; [reflexivity|].
  split; [reflexivity|]. split; [reflexivity|]. split; vm_compute; reflexivity.
Qed.

(** Step 0 carries extras {h: 5} and step 1 carries extras {h: 9}: the
    extras of the 2-step transition are {h: 5}. *)
Lemma write_takes_first_step_witness :
  ∃ self' h' t calls,
    _write examples.zl examples.zl
      (examples.adder 0.9 [examples.step 10 1 4 5; examples.step 11 2 5 9])
      examples.heap123 = Ok (self', h') ∧
    base._writer (super self') = base.append t :: calls ∧
    base.t_observations t = {["a0" := 10%Z]} ∧
    base.t_next_observations t = {["a0" := 42%Z]} ∧
    base.t_extras t = Some {["h" := 5%Z]}.
Proof.
  destruct (write_takes_first_step examples.zl examples.zl
              (examples.adder 0.9 [examples.step 10 1 4 5; examples.step 11 2 5 9])
              examples.heap123 (examples.step 10 1 4 5) [examples.step 11 2 5 9] eq_refl)
    as (self' & h' & t & calls & Hrun & Hw & Ho & _ & Hn & He).
  { apply (bool_decide_unpack _). vm_compute. exact I. }
  exists self', h', t, calls. by split_and!.
Defined.

(** The window of three steps: the arrays of the first step read the same
    after the call. *)
Lemma write_preserves_buffer_witness :
  ∃ self' h',
    _write examples.zl examples.zl (examples.adder 0.9 examples.buffer123) examples.heap123
      = Ok (self', h') ∧
    base._buffer (super self') = examples.buffer123 ∧
    examples.heap123 ⊆ h' ∧
    npops.deref h' (Arr 1%positive) = examples.f32 1 ∧
    npops.deref h' (Arr 4%positive) = examples.f32 1.
Proof.
  destruct (write_preserves_buffer examples.zl examples.zl
              (examples.adder 0.9 examples.buffer123) examples.heap123
              (examples.step 10 1 4 5) [examples.step 11 2 5 9; examples.step 12 3 6 7]
              eq_refl)
    as (self' & h' & Hrun & Hbuf & Hsub & Hsteps).
  { apply (bool_decide_unpack _). vm_compute. exact I. }
  exists self', h'. split; [exact Hrun|]. split; [exact Hbuf|]. split; [exact Hsub|].
  destruct (Hsteps (examples.step 10 1 4 5)) as [Hr Hd]; [by left|].
  split.
  - by rewrite (Hr "a0" (Arr 1%positive)).
  - by rewrite (Hd "a0" (Arr 4%positive)).
Defined.

(** n_step = 0 *)
Lemma init_rejects_n_step_below_1_witness :
  @__init__ Z Z Z 0 (examples.literal 0.9) [] = Raise ValueError.
Proof. exact (init_rejects_n_step_below_1 0 (examples.literal 0.9) [] eq_refl). Defined.

End adder_facts.

(** ** The parameter client *)

Section parameter_facts.
Import ParameterClient.
Local Open Scope Z_scope.

(** The dictionary the mock server returns. *)
Lemma lookup_all_spec names p out :
  MockParameterServer.lookup_all names p = Ok out →
  (∀ k, k ∈ names → is_Some (p !! k) ∧ out !! k = p !! k) ∧
  (∀ k, k ∉ names → out !! k = None).
Proof.
  revert out. induction names as [|name names IH]; intros out; simpl.
  - intros [= <-]. split; [intros k Hk; by apply elem_of_nil in Hk|done].
  - destruct (p !! name) as [v|] eqn:Ev; [|done].
    destruct (MockParameterServer.lookup_all names p) as [out'|] eqn:Eo; [|done].
    simpl. intros [= <-]. destruct (IH out' eq_refl) as [Hin Hout]. split.
    + intros k Hk. destruct (decide (k = name)) as [->|Hne].
      * by rewrite lookup_insert_eq, Ev.
      * rewrite lookup_insert_ne by done. apply Hin.
        apply elem_of_cons in Hk as [?|?]; [done|done].
    + intros k Hk. apply not_elem_of_cons in Hk as [Hne Hk].
      rewrite lookup_insert_ne by done. by apply Hout.
Qed.


Lemma _copy_parameter_supported key v cache :
  supported v = true →
  _copy_parameter key v cache = Ok (<[key := merged (cache !! key) v]> cache).
Proof.
  destruct v as [a|new| |]; try done. intros _. simpl.
  by destruct (cache !! key) as [[]|].
Qed.

Lemma _copy_parameter_unsupported key v cache :
  supported v = false → _copy_parameter key v cache = Raise NotImplementedError.
Proof. by destruct v. Qed.

(** [_copy] either meets an unsupported parameter and raises, or updates
    the cache with every new parameter. *)
Lemma _copy_spec new self :
  ((∃ k v, new !! k = Some v ∧ supported v = false) ∧
   _copy new self = Raise NotImplementedError) ∨
  ((∀ k v, new !! k = Some v → supported v = true) ∧
   ∃ cache, _copy new self = Ok (with_parameters cache self) ∧
     ∀ k, cache !! k = match new !! k with
                       | Some v => Some (merged (_parameters self !! k) v)
                       | None => _parameters self !! k
                       end).
Proof.
  unfold _copy.
  apply (map_fold_weak_ind (λ r m,
    ((∃ k v, m !! k = Some v ∧ supported v = false) ∧
     (r ≫= λ cache, Ok (with_parameters cache self)) = Raise NotImplementedError) ∨
    ((∀ k v, m !! k = Some v → supported v = true) ∧
     ∃ cache, (r ≫= λ cache, Ok (with_parameters cache self))
              = Ok (with_parameters cache self) ∧
       ∀ k, cache !! k = match m !! k with
                         | Some v => Some (merged (_parameters self !! k) v)
                         | None => _parameters self !! k
                         end))).
  - right. split; [intros k v; by rewrite lookup_empty|].
    exists (_parameters self). split; [done|]. intros k. by rewrite lookup_empty.
  - intros i x m r Hi [[(k & v & Hk & Hv) Hr]|[Hall (cache & Hr & Hc)]].
    + left. split.
      * exists k, v. rewrite lookup_insert_ne; [done|]. intros <-. congruence.
      * destruct r as [c|e]; simpl in *; [done|]. done.
    + destruct r as [c|e]; simpl in Hr; [|done].
      injection Hr as Hr. assert (c = cache) as ->.
      { by destruct self; simpl in *; simplify_eq. }
      destruct (supported x) eqn:Hx.
      * right. split.
        { intros k v. destruct (decide (k = i)) as [->|Hne].
          - rewrite lookup_insert_eq. by intros [= <-].
          - rewrite lookup_insert_ne by done. apply Hall. }
        exists (<[i := merged (cache !! i) x]> cache). split.
        { simpl. by rewrite _copy_parameter_supported. }
        intros k. destruct (decide (k = i)) as [->|Hne].
        -- rewrite !lookup_insert_eq. by rewrite (Hc i), Hi.
        -- rewrite !lookup_insert_ne by done. apply Hc.
      * left. split.
        { exists i, x. by rewrite lookup_insert_eq. }
        simpl. by rewrite _copy_parameter_unsupported.
Qed.



Lemma merged_carries old v : supported v = true → carries v (merged old v).
Proof.
  destruct v as [a|new| |]; try done; intros _; simpl.
  destruct old as [[|o| |]|]; simpl; try by eauto.
  intros g grp l x Hg Hl. unfold merge_nested. rewrite lookup_union_with, Hg.
  destruct (o !! g) as [og|]; simpl; [|by eauto].
  eexists. split; [done|]. by rewrite lookup_union, Hl; destruct (og !! l).
Qed.





(** C9. [_copy] raises NotImplementedError exactly when some new parameter
    is neither a nested mapping nor a numeric array; when all are
    supported it returns, and the cache then holds every new array and every
    leaf of every new nested mapping. *)
Theorem copy_raises_iff_unsupported (new_parameters : gmap string param)
    (self : ParameterClient.t) :
  (_copy new_parameters self = Raise NotImplementedError ↔
   ∃ k v, new_parameters !! k = Some v ∧ supported v = false) ∧
  ((∀ k v, new_parameters !! k = Some v → supported v = true) →
   ∃ self', _copy new_parameters self = Ok self' ∧
     ∀ k v, new_parameters !! k = Some v →
       ∃ cached, _parameters self' !! k = Some cached ∧ carries v cached).
Proof.
  destruct (_copy_spec new_parameters self) as [[(k & v & Hk & Hv) Hr]|[Hall (cache & Hr & Hc)]].
  - split.
    + split; [by eauto|done].
    + intros Hall. specialize (Hall k v Hk). congruence.
  - split.
    + split; [by rewrite Hr|]. intros (k & v & Hk & Hv).
      specialize (Hall k v Hk). congruence.
    + intros _. eexists. split; [exact Hr|]. intros k v Hk. simpl.
      rewrite Hc, Hk. eexists. split; [done|]. apply merged_carries. by apply (Hall k).
Qed.

Lemma with_call_counter_twice n m c :
  with_call_counter n (with_call_counter m c) = with_call_counter n c.
Proof. done. Qed.

Lemma with_call_counter_id c : with_call_counter (_call_counter c) c = c.
Proof. by destruct c. Qed.

Lemma repeat_adjust_below (c : ParameterClient.t) s (n : nat) :
  _call_counter c = 0 → Z.of_nat n < _update_period c →
  repeat_adjust n c s = Ok (with_call_counter (Z.of_nat n) c, s).
Proof.
  intros Hc. induction n as [|n IH]; intros Hn.
  - destruct c; simpl in *. by subst.
  - cbn [repeat_adjust]. rewrite IH by lia. simpl.
    unfold _adjust_and_request. simpl.
    rewrite bool_decide_eq_false_2 by lia.
    unfold with_call_counter. simpl. do 3 f_equal. lia.
Qed.

Lemma repeat_adjust_at_period (c : ParameterClient.t) s (n : nat) :
  _call_counter c = 0 → Z.of_nat (S n) = _update_period c →
  repeat_adjust (S n) c s = get_and_wait c s.
Proof.
  intros Hc Hn. cbn [repeat_adjust]. rewrite repeat_adjust_below by (done || lia). simpl.
  unfold _adjust_and_request. simpl. rewrite bool_decide_eq_true_2 by lia.
  rewrite !with_call_counter_twice. by rewrite <- Hc, with_call_counter_id.
Qed.

Lemma get_and_wait_call_counter c s c' s' :
  get_and_wait c s = Ok (c', s') → _call_counter c' = _call_counter c.
Proof.
  unfold get_and_wait.
  destruct (MockParameterServer.get_parameters _ _) as [[new s1]|]; [|done]. simpl.
  destruct (_copy_spec new c) as [[_ Hr]|[_ (cache & Hr & _)]]; rewrite Hr; simpl; [done|].
  by intros [= <- <-].
Qed.

(** C8. With update_period = 10 and the call counter at zero, each of the
    first nine invocations of the hook only increments the counter (the
    store and the cache are untouched); the ten invocations together are
    one [get_and_wait()], and they leave the counter at zero. *)
Theorem adjust_and_request_gate (c : ParameterClient.t) (s : MockParameterServer.t) :
  _update_period c = 10 → _call_counter c = 0 →
  (∀ n, (n ≤ 9)%nat →
     repeat_adjust n c s = Ok (with_call_counter (Z.of_nat n) c, s)) ∧
  repeat_adjust 10 c s = get_and_wait c s ∧
  (∀ c' s', repeat_adjust 10 c s = Ok (c', s') → _call_counter c' = 0).
Proof.
  intros Hp Hc. split; [|split].
  - intros n Hn. apply repeat_adjust_below; [done|lia].
  - apply repeat_adjust_at_period; [done|]. by rewrite Hp.
  - intros c' s'. rewrite (repeat_adjust_at_period c s 9) by (done || by rewrite Hp).
    intros Hrun. by rewrite (get_and_wait_call_counter _ _ _ _ Hrun).
Qed.

(** The fixture of the test-suite (update_period = 10). *)
Lemma adjust_and_request_gate_witness :
  (∀ n, (n ≤ 9)%nat →
     repeat_adjust n fixture.parameter_client fixture.mock_parameter_server =
     Ok (with_call_counter (Z.of_nat n) fixture.parameter_client,
         fixture.mock_parameter_server)) ∧
  repeat_adjust 10 fixture.parameter_client fixture.mock_parameter_server =
    get_and_wait fixture.parameter_client fixture.mock_parameter_server ∧
  (∀ c' s',
     repeat_adjust 10 fixture.parameter_client fixture.mock_parameter_server = Ok (c', s') →
     _call_counter c' = 0).
Proof.
  exact (adjust_and_request_gate fixture.parameter_client fixture.mock_parameter_server
           eq_refl eq_refl).
Defined.

End parameter_facts.

(** ** [_write] and [_write_last]: errors, frame and writer calls *)

Section adder_more.
Import transition.

Lemma io_bind_raise {A B} (m : io A) (k : A → io B) h e :
  m h = Raise e → (m ≫= k) h = Raise e.
Proof. intros H. unfold mbind, io_bind. by rewrite H. Qed.

Lemma io_bind_inv {A B} (m : io A) (k : A → io B) h r :
  (m ≫= k) h = Ok r → ∃ a h1, m h = Ok (a, h1) ∧ k a h1 = Ok r.
Proof.
  unfold mbind, io_bind. destruct (m h) as [[a h1]|e]; [|done]. intros H. by exists a, h1.
Qed.

Lemma assert_same_structure_raise {A B} (m1 : gmap string A) (m2 : gmap string B) h :
  dom m1 ≠ dom m2 → tree.assert_same_structure m1 m2 h = Raise ValueError.
Proof. intros H. unfold tree.assert_same_structure. by rewrite bool_decide_eq_false_2. Qed.

(** A traversal whose function always returns, returns, under the keys of
    the structure it traverses. *)
Lemma traverse_total {A B} (f : A → io B) (m : gmap string A) h :
  (∀ x h, ∃ y h', f x h = Ok (y, h')) →
  ∃ out h', tree.traverse f m h = Ok (out, h') ∧ dom out = dom m.
Proof.
  intros Hf.
  destruct (traverse_spec f m (λ m' out _, dom out = dom m') h) as (out & h' & Hrun & HI).
  - by rewrite !dom_empty_L.
  - intros k x m' out h1 _ _ _ Hd. destruct (Hf x h1) as (y & h2 & Hy).
    exists y, h2. split; [done|]. by rewrite !dom_insert_L, Hd.
  - by exists out, h'.
Qed.

Lemma copy_total v h : ∃ y h', npops.copy v h = Ok (y, h').
Proof. by eexists _, _. Qed.
Lemma copy_broadcast_total r d h : ∃ y h', npops.copy_broadcast r d h = Ok (y, h').
Proof. by eexists _, _. Qed.
Lemma zeros_like_total v h : ∃ y h', npops.zeros_like v h = Ok (y, h').
Proof. by eexists _, _. Qed.
Lemma imul_total a b h : ∃ y h', npops.imul a b h = Ok (y, h').
Proof. destruct a; by eexists _, _. Qed.
Lemma iadd_mul_total nsr sr td h :
  ∃ y h', (t ← npops.mul sr td; npops.iadd nsr t) h = Ok (y, h').
Proof. destruct nsr; by eexists _, _. Qed.

Lemma map_structure2_total {A B C} (f : A → B → io C) m1 m2 h :
  (∀ x y h, ∃ z h', f x y h = Ok (z, h')) → dom m1 = dom m2 →
  ∃ out h', tree.map_structure2 f m1 m2 h = Ok (out, h') ∧ dom out = dom m1.
Proof.
  intros Hf Hd. rewrite map_structure2_run by done.
  destruct (traverse_total (λ p, f p.1 p.2) (map_zip m1 m2) h) as (out & h' & Hrun & Hdom).
  { intros [x y] h1. apply Hf. }
  exists out, h'. split; [done|]. rewrite Hdom, dom_map_zip_with_L, Hd. apply (idemp_L (∩)).
Qed.

Lemma map_structure3_total {A B C D} (f : A → B → C → io D) m1 m2 m3 h :
  (∀ x y z h, ∃ w h', f x y z h = Ok (w, h')) → dom m1 = dom m2 → dom m1 = dom m3 →
  ∃ out h', tree.map_structure3 f m1 m2 m3 h = Ok (out, h') ∧ dom out = dom m1.
Proof.
  intros Hf Hd2 Hd3. unfold tree.map_structure3.
  rewrite !bind_assert_same_structure by done.
  destruct (traverse_total (λ p, f p.1.1 p.1.2 p.2) (map_zip (map_zip m1 m2) m3) h)
    as (out & h' & Hrun & Hdom).
  { intros [[x y] z] h1. apply Hf. }
  exists out, h'. split; [done|].
  rewrite Hdom, !dom_map_zip_with_L, <- Hd2, <- Hd3. by rewrite !(idemp_L (∩)).
Qed.

Section write_facts.
Context {Obs Act Ext : Type}.
Context (zeros_like_act : Act → Act) (zeros_like_ext : Ext → Ext).
Local Abbreviation Step := (base.Step Obs Act Ext).
Local Abbreviation Adder := (ParallelNStepTransitionAdder Obs Act Ext).

(** The loop body returns the accumulator it was given when the keys of
    the step agree with it, and raises ValueError otherwise. *)
Lemma loop_body_run (nsr sd td : gmap string value) (s : Step) h :
  dom nsr = dom td → dom sd = dom td →
  if step_keys_agree (dom td) s
  then ∃ h', _write_loop_body nsr sd td s h = Ok (td, h')
  else _write_loop_body nsr sd td s h = Raise ValueError.
Proof.
  intros Hn Hs. unfold step_keys_agree, _write_loop_body, tree_utils.broadcast_structures.
  destruct (decide (dom (rewards_or_zeros s) = dom (base.discounts s))) as [Hr|Hr].
  - rewrite (bool_decide_eq_true_2 _ Hr). simpl.
    destruct (decide (dom (base.discounts s) = dom td)) as [Hd|Hd].
    + rewrite (bool_decide_eq_true_2 _ Hd).
      rewrite (io_bind_ok _ _ h ((base.discounts s), (rewards_or_zeros s), td) h).
      2:{ by rewrite !bind_assert_same_structure. }
      destruct (map_structure2_total npops.imul td sd h) as (o1 & h1 & Hrun1 & _);
        [apply imul_total|done|].
      destruct (map_structure3_total (λ nsr sr td, t ← npops.mul sr td; npops.iadd nsr t)
                  nsr (rewards_or_zeros s) td h1) as (o2 & h2 & Hrun2 & _);
        [apply iadd_mul_total|congruence|done|].
      destruct (map_structure2_total npops.imul td (base.discounts s) h2)
        as (o3 & h3 & Hrun3 & _); [apply imul_total|done|].
      exists h3. rewrite (io_bind_ok _ _ _ _ _ Hrun1), (io_bind_ok _ _ _ _ _ Hrun2).
      by rewrite (io_bind_ok _ _ _ _ _ Hrun3).
    + rewrite (bool_decide_eq_false_2 _ Hd).
      apply io_bind_raise. rewrite bind_assert_same_structure by done.
      apply io_bind_raise. apply assert_same_structure_raise. congruence.
  - rewrite (bool_decide_eq_false_2 _ Hr). simpl.
    apply io_bind_raise. apply io_bind_raise. by apply assert_same_structure_raise.
Qed.

Lemma for_each_step_run (nsr sd td : gmap string value) (later : list Step) h :
  dom nsr = dom td → dom sd = dom td →
  if forallb (step_keys_agree (dom td)) later
  then ∃ h', for_each_step (_write_loop_body nsr sd) later td h = Ok (td, h')
  else for_each_step (_write_loop_body nsr sd) later td h = Raise ValueError.
Proof.
  intros Hn Hs. revert h. induction later as [|s later IH]; intros h; simpl.
  - by exists h.
  - pose proof (loop_body_run nsr sd td s h Hn Hs) as Hbody.
    destruct (step_keys_agree (dom td) s); simpl.
    + destruct Hbody as (h1 & Hrun). rewrite (io_bind_ok _ _ _ _ _ Hrun). apply IH.
    + destruct (forallb _ later); by apply io_bind_raise.
Qed.

Lemma final_step_like_total (s : Step) obs h :
  ∃ p h', utils.final_step_like zeros_like_act zeros_like_ext s obs h = Ok (p, h').
Proof.
  destruct (final_step_like_frame zeros_like_act zeros_like_ext s obs h) as (p & h' & H & _).
  by exists p, h'.
Qed.

(** X1. [_write] raises IndexError on an empty buffer, ValueError when the
    keys of the structures of some step disagree, and returns otherwise. *)
Theorem write_returns_iff_keys_agree (self : Adder) h :
  match base._buffer (super self) with
  | [] => _write zeros_like_act zeros_like_ext self h = Raise IndexError
  | window =>
      if keys_agree window
      then ∃ self' h', _write zeros_like_act zeros_like_ext self h = Ok (self', h')
      else _write zeros_like_act zeros_like_ext self h = Raise ValueError
  end.
Proof.
  unfold _write, _write_with.
  destruct (base._buffer (super self)) as [|s0 later] eqn:Hbuf; [done|].
  cbn [keys_agree]. unfold tree_utils.broadcast_structures.
  destruct (decide (dom (base.discounts s0) = dom (rewards_or_zeros s0))) as [Hd|Hd].
  2:{ rewrite (bool_decide_eq_false_2 _ Hd). simpl.
      apply io_bind_raise, io_bind_raise. by apply assert_same_structure_raise. }
  rewrite (bool_decide_eq_true_2 _ Hd). simpl.
  destruct (decide (dom (base.observations s0) = dom (rewards_or_zeros s0))) as [Ho|Ho].
  2:{ rewrite (bool_decide_eq_false_2 _ Ho). simpl.
      apply io_bind_raise. rewrite bind_assert_same_structure by done.
      apply io_bind_raise. apply assert_same_structure_raise. by rewrite dom_fmap_L. }
  rewrite (bool_decide_eq_true_2 _ Ho). simpl.
  set (sd := (λ _ : Obs, Scalar (_discount self)) <$> base.observations s0).
  rewrite (io_bind_ok _ _ h (rewards_or_zeros s0, base.discounts s0, sd) h).
  2:{ rewrite !bind_assert_same_structure; [done| |done]. unfold sd. by rewrite dom_fmap_L. }
  destruct (traverse_total npops.copy (base.discounts s0) h) as (td & h1 & Hrun1 & Hdtd);
    [apply copy_total|].
  destruct (map_structure2_total npops.copy_broadcast (rewards_or_zeros s0) td h1)
    as (nsr & h2 & Hrun2 & Hdnsr); [apply copy_broadcast_total|congruence|].
  assert (Hn : dom nsr = dom td) by congruence.
  assert (Hs : dom sd = dom td) by (unfold sd; rewrite dom_fmap_L; congruence).
  pose proof (for_each_step_run nsr sd td later h2 Hn Hs) as Hloop.
  rewrite Hdtd in Hloop.
  destruct (forallb _ later).
  - destruct Hloop as (h3 & Hrun3).
    unfold tree.map_structure at 1. rewrite (io_bind_ok _ _ _ _ _ Hrun1).
    rewrite (io_bind_ok _ _ _ _ _ Hrun2).
    rewrite (io_bind_ok _ _ _ _ _ Hrun3).
    unfold serialise at 1. unfold mbind at 1, io_bind at 1.
    unfold serialise at 1. unfold mbind at 1, io_bind at 1.
    assert (∃ placeholder h4,
      match _final_step_placeholder self with
      | None => utils.final_step_like zeros_like_act zeros_like_ext s0
                  (base._next_observations (super self))
      | Some p => mret p
      end h3 = Ok (placeholder, h4)) as (placeholder & h4 & Hrun4).
    { destruct (_final_step_placeholder self) as [p|]; [by exists p, h3|].
      apply final_step_like_total. }
    rewrite (io_bind_ok _ _ _ _ _ Hrun4). by eexists _, _.
  - unfold tree.map_structure at 1. rewrite (io_bind_ok _ _ _ _ _ Hrun1).
    rewrite (io_bind_ok _ _ _ _ _ Hrun2).
    by apply io_bind_raise.
Qed.

(** What a call of [_write] that returns has done to the adder. *)
Lemma _write_inv (self self' : Adder) h h' :
  _write zeros_like_act zeros_like_ext self h = Ok (self', h') →
  ∃ s0 later t placeholder,
    base._buffer (super self) = s0 :: later ∧
    (∀ p, _final_step_placeholder self = Some p → placeholder = p) ∧
    base.t_observations t = base.observations s0 ∧
    base.t_actions t = base.actions s0 ∧
    base.t_next_observations t = base._next_observations (super self) ∧
    self' =
      mk_Adder (_discount self)
        ((λ _, Scalar (_discount self)) <$> base.observations s0)
        (Some placeholder)
        (base.writer_calls
           (base.append t ::
            map (λ tf : string * base.PriorityFn Obs Act Ext,
                   base.create_item tf.1 1
                     (tf.2 (base._buffer (super self) ++
                            [base._replace_observations placeholder
                               (base._next_observations (super self))]) h'))
              (base._priority_fns (super self)))
           (super self)).
Proof.
  unfold _write, _write_with.
  destruct (base._buffer (super self)) as [|s0 later] eqn:Hbuf; [done|].
  intros Hrun.
  apply io_bind_inv in Hrun as ([[nsr0 td0] sd] & h0 & _ & Hrun).
  apply io_bind_inv in Hrun as (td & h1 & _ & Hrun).
  apply io_bind_inv in Hrun as (nsr & h2 & _ & Hrun).
  apply io_bind_inv in Hrun as (td' & h3 & _ & Hrun).
  apply io_bind_inv in Hrun as (nsr_items & h4 & _ & Hrun).
  apply io_bind_inv in Hrun as (td_items & h5 & _ & Hrun).
  apply io_bind_inv in Hrun as (placeholder & h6 & Hp & Hrun).
  apply io_bind_inv in Hrun as (prios & h7 & Hprio & Hrun).
  injection Hrun as <- <-. injection Hprio as <- <-.
  exists s0, later,
    (base.mk_Transition (base.observations s0) (base.actions s0) nsr_items td_items
       (base._next_observations (super self))
       (if is_empty (base.extras s0) then None else Some (base.extras s0))),
    placeholder.
  split; [done|]. split.
  { intros p Hcached. rewrite Hcached in Hp. by injection Hp as ->. }
  split; [reflexivity|]. split; [reflexivity|]. split; [reflexivity|].
  f_equal. f_equal. f_equal. by rewrite map_map.
Qed.

(** X2. A call of [_write] that returns leaves the buffer and the
    configuration of the adder as they were, and rebuilds [_discounts]
    from the agents of the observations of the first step. *)
Theorem write_keeps_adder_state (self self' : Adder) h h' :
  _write zeros_like_act zeros_like_ext self h = Ok (self', h') →
  base._buffer (super self') = base._buffer (super self) ∧
  base._buffer_size (super self') = base._buffer_size (super self) ∧
  base._max_sequence_length (super self') = base._max_sequence_length (super self) ∧
  base._priority_fns (super self') = base._priority_fns (super self) ∧
  base._next_observations (super self') = base._next_observations (super self) ∧
  _discount self' = _discount self ∧
  ∃ s0, head (base._buffer (super self)) = Some s0 ∧
    _discounts self' = (λ _, Scalar (_discount self)) <$> base.observations s0.
Proof.
  intros Hrun. apply _write_inv in Hrun as (s0 & later & t & p & Hbuf & _ & _ & _ & _ & ->).
  split_and!; try done. exists s0. by rewrite Hbuf.
Qed.

(** X3. A call of [_write] that returns has added to the calls on the
    writer exactly one [append], of a transition with the observations and
    actions of the first buffered step and the arrival observations, and
    after it only calls of [create_item] with num_timesteps = 1. *)
Theorem write_writer_calls (self self' : Adder) h h' :
  _write zeros_like_act zeros_like_ext self h = Ok (self', h') →
  ∃ s0 t calls,
    head (base._buffer (super self)) = Some s0 ∧
    base._writer (super self') = base._writer (super self) ++ base.append t :: calls ∧
    base.t_observations t = base.observations s0 ∧
    base.t_actions t = base.actions s0 ∧
    base.t_next_observations t = base._next_observations (super self) ∧
    Forall (λ c, ∃ table priority, c = base.create_item table 1 priority) calls.
Proof.
  intros Hrun.
  apply _write_inv in Hrun as (s0 & later & t & p & Hbuf & _ & Ho & Ha & Hn & ->).
  exists s0, t. eexists. split; [by rewrite Hbuf|]. split; [reflexivity|].
  split; [done|]. split; [done|]. split; [done|].
  apply Forall_forall. intros c Hc. apply list_elem_of_fmap in Hc as ([table f] & -> & _).
  by eexists _, _.
Qed.

Lemma popleft_placeholder (self self' : Adder) h h' :
  popleft self h = Ok (self', h') →
  _final_step_placeholder self' = _final_step_placeholder self.
Proof.
  unfold popleft. destruct (base.popleft (super self)) as [super'|e]; [|done].
  by intros [= <- <-].
Qed.

Lemma _write_last_loop_placeholder (fuel : nat) :
  ∀ (self self' : Adder) h h' p,
    _final_step_placeholder self = Some p →
    _write_last_loop zeros_like_act zeros_like_ext fuel self h = Ok (self', h') →
    _final_step_placeholder self' = Some p.
Proof.
  induction fuel as [|fuel IH]; intros self self' h h' p Hp; simpl.
  - destruct (base._buffer (super self)); by intros [= <- <-].
  - destruct (base._buffer (super self)) as [|s0 later] eqn:Hbuf; [by intros [= <- <-]|].
    intros Hrun.
    apply io_bind_inv in Hrun as (self1 & h1 & Hw & Hrun).
    apply io_bind_inv in Hrun as (self2 & h2 & Hpop & Hrun).
    apply _write_inv in Hw as (s0' & later' & t & p' & _ & Hcached & _ & _ & _ & ->).
    apply popleft_placeholder in Hpop. simpl in Hpop.
    apply (IH self2 self' h2 h' p); [|done]. by rewrite Hpop, (Hcached p Hp).
Qed.

(** X4. The final-step placeholder is computed at most once: a call of
    [_write] that returns leaves a placeholder set, and a call of [_write]
    or of [_write_last] that returns from a state that holds a placeholder,
    whatever the buffer, the arrival observations and the heap of that
    state, leaves that same placeholder in place. *)
Theorem write_placeholder_cached (self self' : Adder) h h' :
  _write zeros_like_act zeros_like_ext self h = Ok (self', h') ∨
  _write_last zeros_like_act zeros_like_ext self h = Ok (self', h') →
  (∀ p, _final_step_placeholder self = Some p → _final_step_placeholder self' = Some p) ∧
  (_write zeros_like_act zeros_like_ext self h = Ok (self', h') →
   is_Some (_final_step_placeholder self')).
Proof.
  intros Hrun. split.
  - intros p Hp. destruct Hrun as [Hrun|Hrun].
    + apply _write_inv in Hrun as (s0 & later & t & p' & _ & Hcached & _ & _ & _ & ->).
      simpl. by rewrite (Hcached p Hp).
    + unfold _write_last in Hrun.
      apply io_bind_inv in Hrun as (self1 & h1 & Hpop & Hrun).
      apply popleft_placeholder in Hpop.
      apply (_write_last_loop_placeholder _ self1 self' h1 h' p) in Hrun; [done|].
      by rewrite Hpop.
  - intros Hw. apply _write_inv in Hw as (s0 & later & t & p' & _ & _ & _ & _ & _ & ->).
    by eexists.
Qed.

(** X5. The total_discount and the n_step_return of the transition of a
    well-formed window have exactly the agents of the first step as keys;
    the total_discount of an agent has the dtype of its first discount and
    does not depend on the rewards: it is the first discount multiplied in
    place, step after step, by g and then by the discount of the step,
    every product being rounded. *)
Theorem write_total_discount (self : Adder) h (s0 : Step) later :
  base._buffer (super self) = s0 :: later →
  window_ok h (s0 :: later) →
  ∃ self' h' t calls,
    _write zeros_like_act zeros_like_ext self h = Ok (self', h') ∧
    base._writer (super self') = base._writer (super self) ++ base.append t :: calls ∧
    dom (base.t_total_discount t) = dom (base.discounts s0) ∧
    dom (base.t_n_step_return t) = dom (base.discounts s0) ∧
    ∀ a, a ∈ dom (base.discounts s0) →
      base.t_total_discount t !! a =
        Some (foldl (λ total_discount discount,
                       multiply_into (multiply_into total_discount (_discount self)) discount)
                (discount_at h a s0) (discount_at h a <$> later)) ∧
      dtype_of <$> base.t_total_discount t !! a = Some (dtype_of (discount_at h a s0)).
Proof.
  intros Hbuf Hok.
  destruct (_write_spec zeros_like_act zeros_like_ext self h s0 later Hbuf Hok)
    as (h' & placeholder & calls & Hrun & _ & _).
  eexists _, h', _, _. split; [exact Hrun|]. split; [reflexivity|].
  cbn [base.t_n_step_return base.t_total_discount expected_transition].
  split; [|split].
  - apply set_eq. intros a. rewrite !elem_of_dom, map_lookup_imap.
    destruct (base.discounts s0 !! a); simpl; split; intros [? ?]; by eauto.
  - apply set_eq. intros a. rewrite !elem_of_dom, map_lookup_imap.
    destruct (base.discounts s0 !! a); simpl; split; intros [? ?]; by eauto.
  - intros a Ha. rewrite map_lookup_imap. apply elem_of_dom in Ha as [v ->]. simpl.
    unfold accumulate. split.
    + by rewrite foldl_acc_step_snd.
    + by destruct (foldl_acc_step_dtype (_discount self) h a
        (reward_at h a s0, discount_at h a s0) later) as [_ ->].
Qed.

End write_facts.

Section write_more_facts.
Context {Obs Act Ext : Type}.
Context (zeros_like_act : Act → Act) (zeros_like_ext : Ext → Ext).
Local Abbreviation Step := (base.Step Obs Act Ext).
Local Abbreviation Adder := (ParallelNStepTransitionAdder Obs Act Ext).


(** X7. A drain leaves every array allocated before it as it was; the
    rewards and discounts of the drained steps read the same after it. *)
Theorem write_last_preserves_arrays (self : Adder) h (s0 : Step) rest :
  base._buffer (super self) = s0 :: rest →
  drain_ok h rest →
  ∃ self' h',
    _write_last zeros_like_act zeros_like_ext self h = Ok (self', h') ∧
    h ⊆ h' ∧
    ∀ s, s ∈ rest →
      (∀ a v, base.rewards s !! a = Some v → npops.deref h' v = npops.deref h v) ∧
      (∀ a v, base.discounts s !! a = Some v → npops.deref h' v = npops.deref h v).
Proof.
  intros Hbuf Hok.
  destruct (_write_last_spec zeros_like_act zeros_like_ext self h s0 rest Hbuf Hok)
    as (self' & h' & Hrun & Hsub & _ & _).
  exists self', h'. split; [done|]. split; [done|].
  intros s Hs.
  assert (Hstep : ∃ K, step_ok h K s).
  { clear Hbuf Hrun. induction rest as [|s1 rest IH]; [by apply elem_of_nil in Hs|].
    apply Forall_cons in Hok as [[_ Hw] Hrest].
    apply elem_of_cons in Hs as [->|Hs]; [|by apply IH].
    eexists. exact (Forall_inv Hw). }
  destruct Hstep as (K & _ & _ & Hr & Hd).
  split; intros a v Hv; (apply deref_subseteq; [|done]).
  - by apply (Hr a).
  - by apply (Hd a).
Qed.

(** X8. [_write_last] raises IndexError on an empty buffer; on a buffer of
    one step it removes the step and writes nothing. *)
Theorem write_last_short_buffers (self : Adder) h :
  match base._buffer (super self) with
  | [] => _write_last zeros_like_act zeros_like_ext self h = Raise IndexError
  | [_] =>
      ∃ self',
        _write_last zeros_like_act zeros_like_ext self h = Ok (self', h) ∧
        base._buffer (super self') = [] ∧
        base._writer (super self') = base._writer (super self) ∧
        _final_step_placeholder self' = _final_step_placeholder self
  | _ => True
  end.
Proof.
  unfold _write_last, popleft, base.popleft.
  destruct (base._buffer (super self)) as [|s0 [|s1 rest]] eqn:Hbuf; [done| |done].
  eexists. split; [reflexivity|]. done.
Qed.

End write_more_facts.

End adder_more.

Section adder_witnesses.
Import transition.

Lemma write_keeps_adder_state_witness :
  ∃ self' h',
    _write examples.zl examples.zl (examples.adder 0.9 examples.buffer123) examples.heap123
      = Ok (self', h') ∧
    base._buffer (super self') = examples.buffer123 ∧
    base._buffer_size (super self') = 3%Z ∧
    _discounts self' = {["a0" := Scalar (examples.f32 0.9)]}.
Proof.
  destruct (_write_spec examples.zl examples.zl
              (examples.adder 0.9 examples.buffer123) examples.heap123
              (examples.step 10 1 4 5) [examples.step 11 2 5 9; examples.step 12 3 6 7]
              eq_refl)
    as (h' & placeholder & calls & Hrun & _ & _).
  { apply (bool_decide_unpack _). vm_compute. exact I. }
  eexists _, h'. split; [exact Hrun|].
  destruct (write_keeps_adder_state _ _ _ _ _ _ Hrun)
    as (Hb & Hs & _ & _ & _ & _ & s0 & Hs0 & Hd).
  split; [exact Hb|]. split; [exact Hs|].
  injection Hs0 as <-. rewrite Hd.
  exact (map_fmap_singleton (λ _ : Z, Scalar (examples.f32 0.9)) "a0" 10%Z).
Defined.

Lemma write_writer_calls_witness :
  ∃ self' h' t calls,
    _write examples.zl examples.zl (examples.adder 0.9 examples.buffer123) examples.heap123
      = Ok (self', h') ∧
    base._writer (super self') = base.append t :: calls ∧
    base.t_observations t = {["a0" := 10%Z]} ∧
    base.t_next_observations t = {["a0" := 42%Z]} ∧
    Forall (λ c, ∃ table priority, c = base.create_item table 1 priority) calls.
Proof.
  destruct (_write_spec examples.zl examples.zl
              (examples.adder 0.9 examples.buffer123) examples.heap123
              (examples.step 10 1 4 5) [examples.step 11 2 5 9; examples.step 12 3 6 7]
              eq_refl)
    as (h' & placeholder & calls0 & Hrun & _ & _).
  { apply (bool_decide_unpack _). vm_compute. exact I. }
  destruct (write_writer_calls _ _ _ _ _ _ Hrun)
    as (s0 & t & calls & Hs0 & Hw & Ho & _ & Hn & Hc).
  injection Hs0 as <-.
  eexists _, h', t, calls. split; [exact Hrun|]. split; [exact Hw|].
  split; [exact Ho|]. split; [exact Hn|exact Hc].
Defined.

(** A write, the removal of the front step, and a second write on the two
    steps left: the placeholder of the first write is still in place. *)
Lemma write_placeholder_cached_witness :
  ∃ self1 h1 self1' self2 h2,
    _write examples.zl examples.zl (examples.adder 0.9 examples.buffer123) examples.heap123
      = Ok (self1, h1) ∧
    popleft self1 h1 = Ok (self1', h1) ∧
    base._buffer (super self1') = tail examples.buffer123 ∧
    _write examples.zl examples.zl self1' h1 = Ok (self2, h2) ∧
    is_Some (_final_step_placeholder self1') ∧
    _final_step_placeholder self2 = _final_step_placeholder self1'.
Proof.
  assert (Hok : window_ok examples.heap123 examples.buffer123).
  { apply (bool_decide_unpack _). vm_compute. exact I. }
  assert (Hok' : window_ok examples.heap123 (tail examples.buffer123)).
  { apply (bool_decide_unpack _). vm_compute. exact I. }
  destruct (_write_spec examples.zl examples.zl
              (examples.adder 0.9 examples.buffer123) examples.heap123
              (examples.step 10 1 4 5) [examples.step 11 2 5 9; examples.step 12 3 6 7]
              eq_refl Hok)
    as (h1 & placeholder & calls & Hrun1 & _ & Hsub).
  match type of Hrun1 with
  | _ = Ok (?self1, _) =>
      set (self1' := mk_Adder (_discount self1) (_discounts self1)
                       (_final_step_placeholder self1)
                       (base.mk_ReverbParallelAdder (tail examples.buffer123)
                          (base._buffer_size (super self1))
                          (base._max_sequence_length (super self1))
                          (base._priority_fns (super self1))
                          (base._next_observations (super self1))
                          (base._writer (super self1))))
  end.
  destruct (_write_spec examples.zl examples.zl self1' h1
              (examples.step 11 2 5 9) [examples.step 12 3 6 7]
              eq_refl (window_ok_subseteq _ _ _ Hsub Hok'))
    as (h2 & placeholder2 & calls2 & Hrun2 & _ & _).
  eexists _, h1, self1', _, h2. split; [exact Hrun1|]. split; [reflexivity|].
  split; [reflexivity|]. split; [exact Hrun2|]. split; [by eexists|].
  destruct (write_placeholder_cached examples.zl examples.zl _ _ _ _ (or_introl Hrun2))
    as [Hkeep _].
  exact (Hkeep placeholder eq_refl).
Defined.

(** Two steps of float32 discounts 1 and 1 with g = np.float32(0.9): the
    total_discount is (1 * g) * 1, the float32 value of g. *)
Lemma write_total_discount_witness :
  ∃ self' h' t calls,
    _write examples.zl examples.zl (examples.adder 0.9 more_examples.buffer12)
      examples.heap123 = Ok (self', h') ∧
    base._writer (super self') = base.append t :: calls ∧
    dom (base.t_total_discount t) = {["a0"]} ∧
    base.t_total_discount t !! "a0" = Some (examples.f32 0.9).
Proof.
  destruct (write_total_discount examples.zl examples.zl
              (examples.adder 0.9 more_examples.buffer12) examples.heap123
              (examples.step 10 1 4 5) [examples.step 11 2 5 9] eq_refl)
    as (self' & h' & t & calls & Hrun & Hw & Hd & _ & Ht).
  { apply (bool_decide_unpack _). vm_compute. exact I. }
  exists self', h', t, calls. split; [exact Hrun|]. split; [exact Hw|].
  split.
  { rewrite Hd. apply dom_singleton_L. }
  destruct (Ht "a0") as [Hv _]; [by apply (bool_decide_unpack _); vm_compute|].
  rewrite Hv. vm_compute. reflexivity.
Defined.


(** The drain of the window of rewards [1,2,3]: the reward array of the
    second step still holds 2. *)
Lemma write_last_preserves_arrays_witness :
  ∃ self' h',
    _write_last examples.zl examples.zl (examples.adder 0.9 examples.buffer123)
      examples.heap123 = Ok (self', h') ∧
    examples.heap123 ⊆ h' ∧
    npops.deref h' (Arr 2%positive) = examples.f32 2.
Proof.
  destruct (write_last_preserves_arrays examples.zl examples.zl
              (examples.adder 0.9 examples.buffer123) examples.heap123
              (examples.step 10 1 4 5) (tail examples.buffer123) eq_refl)
    as (self' & h' & Hrun & Hsub & Hall).
  { apply (bool_decide_unpack _). vm_compute. exact I. }
  exists self', h'. split; [exact Hrun|]. split; [exact Hsub|].
  destruct (Hall (examples.step 11 2 5 9)) as [Hr _]; [by left|].
  rewrite (Hr "a0" (Arr 2%positive)); [|reflexivity].
  reflexivity.
Defined.

End adder_witnesses.

(** ** [signature] and [_broadcast_specs] *)

Section signature_facts.
Import signature_model.
Local Open Scope nat_scope.

Lemma broadcast_aligned_nil_r (a : list nat) : broadcast_aligned a [] = Ok a.
Proof. by destruct a. Qed.

Lemma broadcast_aligned_comm (a b : list nat) :
  broadcast_aligned a b = broadcast_aligned b a.
Proof.
  revert b. induction a as [|x a IH]; intros [|y b]; try done. simpl. rewrite (IH b).
  destruct (broadcast_aligned b a) as [rest|e]; simpl; [|done].
  repeat case_decide; subst; try done; lia.
Qed.

Lemma broadcast_aligned_raise (a b : list nat) e :
  broadcast_aligned a b = Raise e → e = ValueError.
Proof.
  revert b. induction a as [|x a IH]; intros [|y b]; try done. simpl.
  destruct (broadcast_aligned a b) as [rest|e'] eqn:E; simpl.
  - repeat case_decide; intros ?; by simplify_eq.
  - intros [= <-]. by eapply IH.
Qed.

Lemma broadcast_aligned_diag (a : list nat) : broadcast_aligned a a = Ok a.
Proof.
  induction a as [|x a IH]; [done|]. simpl. rewrite IH. simpl. by rewrite decide_True.
Qed.

Lemma fits_cons_inv x a z c :
  fits (x :: a) (z :: c) → fits a c ∧ (x = z ∨ x = 1).
Proof.
  unfold fits. simpl. destruct (broadcast_aligned a c) as [rest|e] eqn:E; simpl; [|done].
  repeat case_decide; intros ?; simplify_eq; auto.
Qed.

Lemma fits_cons x a z c :
  fits a c → x = z ∨ x = 1 → fits (x :: a) (z :: c).
Proof.
  unfold fits. intros Hf Hx. simpl. rewrite Hf. simpl.
  repeat case_decide; subst; try done; destruct Hx; congruence.
Qed.

Lemma fits_nil_r a : fits a [] → a = [].
Proof. unfold fits. rewrite broadcast_aligned_nil_r. by intros [= ->]. Qed.

Lemma fits_nil_l c : fits [] c.
Proof. done. Qed.

Lemma fits_trans a c e : fits a c → fits c e → fits a e.
Proof.
  revert c e. induction a as [|x a IH]; intros c e Hac Hce; [apply fits_nil_l|].
  destruct c as [|z c]; [by apply fits_nil_r in Hac|].
  destruct e as [|w e]; [by apply fits_nil_r in Hce|].
  apply fits_cons_inv in Hac as [Hac Hx]. apply fits_cons_inv in Hce as [Hce Hz].
  apply fits_cons; [by eapply IH|]. destruct Hx, Hz; subst; auto.
Qed.

Lemma broadcast_aligned_fits a b c :
  broadcast_aligned a b = Ok c → fits a c ∧ fits b c.
Proof.
  revert b c. induction a as [|x a IH]; intros b c.
  - simpl. intros [= ->]. split; [apply fits_nil_l|apply broadcast_aligned_diag].
  - destruct b as [|y b].
    + simpl. intros [= <-]. split; [apply broadcast_aligned_diag|apply fits_nil_l].
    + simpl. destruct (broadcast_aligned a b) as [rest|e] eqn:E; simpl; [|done].
      destruct (IH _ _ E) as [Ha Hb].
      repeat case_decide; intros ?; simplify_eq; split; apply fits_cons; auto.
Qed.

Lemma broadcast_all_fits acc shapes out :
  broadcast_all acc shapes = Ok out →
  fits acc out ∧ ∀ s, s ∈ shapes → fits (reverse s) out.
Proof.
  revert acc. induction shapes as [|s shapes IH]; intros acc; simpl.
  - intros [= ->]. split; [apply broadcast_aligned_diag|]. intros s Hs. by apply elem_of_nil in Hs.
  - destruct (broadcast_aligned acc (reverse s)) as [acc'|e] eqn:E; simpl; [|done].
    intros Hrest. destruct (IH _ Hrest) as [Hacc' Hall].
    destruct (broadcast_aligned_fits _ _ _ E) as [Ha Hs]. split.
    + by eapply fits_trans.
    + intros s' Hs'. apply elem_of_cons in Hs' as [->|Hs']; [by eapply fits_trans|by apply Hall].
Qed.

Section signature_dtypes.
Context {D O A E T : Type}.
Context (result_type : list D → D).
Local Abbreviation Array := (@signature_model.Array D).

(** X9. When [_broadcast_specs] returns, every argument broadcasts to the
    shape of the result; the dtype of the result is [np.result_type] of the
    dtypes of the arguments, and the result has no name. *)
Theorem broadcast_specs_result (args : list Array) (r : Array) :
  _broadcast_specs result_type args = Ok r →
  (∀ a, a ∈ args → np_broadcast_shape [shape a; shape r] = Ok (shape r)) ∧
  dtype r = result_type (dtype <$> args) ∧
  name r = None.
Proof.
  unfold _broadcast_specs. destruct args as [|a0 args]; [done|].
  unfold np_broadcast_shape at 1.
  destruct (broadcast_all [] (shape <$> a0 :: args)) as [out|e] eqn:Eb; simpl; [|done].
  intros [= <-]. simpl. split; [|done].
  intros a Ha. destruct (broadcast_all_fits _ _ _ Eb) as [_ Hall].
  assert (Hfit : fits (reverse (shape a)) out).
  { apply Hall. by apply (list_elem_of_fmap_2 shape). }
  unfold np_broadcast_shape. simpl. rewrite reverse_involutive.
  unfold fits in Hfit. by rewrite Hfit.
Qed.

(** X10. A spec broadcast with scalar specs keeps its shape, in either
    order of the two. *)
Theorem broadcast_specs_scalar (a b : Array) :
  shape b = [] →
  _broadcast_specs result_type [a; b]
    = Ok (mk_Array (shape a) (result_type [dtype a; dtype b]) None) ∧
  _broadcast_specs result_type [b; a]
    = Ok (mk_Array (shape a) (result_type [dtype b; dtype a]) None).
Proof.
  intros Hb. unfold _broadcast_specs, np_broadcast_shape. simpl. rewrite Hb. simpl.
  rewrite broadcast_aligned_nil_r. simpl. by rewrite reverse_involutive.
Qed.

(** X11. The shape [_broadcast_specs] gives to two specs, or its failure,
    does not depend on their order. *)
Theorem broadcast_specs_shape_comm (a b : Array) :
  match _broadcast_specs result_type [a; b], _broadcast_specs result_type [b; a] with
  | Ok r, Ok r' => shape r = shape r'
  | Raise e, Raise e' => e = ValueError ∧ e' = ValueError
  | _, _ => False
  end.
Proof.
  unfold _broadcast_specs, np_broadcast_shape. simpl.
  rewrite (broadcast_aligned_comm (reverse (shape a)) (reverse (shape b))).
  destruct (broadcast_aligned (reverse (shape b)) (reverse (shape a))) as [out|e] eqn:Ee;
    simpl; [done|].
  by apply broadcast_aligned_raise in Ee.
Qed.

Local Abbreviation EnvironmentSpec := (@signature_model.EnvironmentSpec D O A).
Local Abbreviation spec_dicts := (@signature_model.spec_dicts D O A E).

Lemma signature_agent_inv specs (acc : spec_dicts) agent d :
  signature_agent result_type specs acc agent = Ok d →
  ∃ spec r, specs !! agent = Some spec ∧
    _broadcast_specs result_type [rewards spec; discounts spec] = Ok r ∧
    d = mk_spec_dicts
          (<[agent := observations spec]> (obs_specs acc))
          (<[agent := actions spec]> (act_specs acc))
          (<[agent := r]> (reward_specs acc))
          (<[agent := discounts spec]> (step_discount_specs acc))
          (<[agent := ∅]> (extras_spec acc)).
Proof.
  unfold signature_agent. destruct (specs !! agent) as [spec|]; [|done].
  destruct (_broadcast_specs result_type [rewards spec; discounts spec]) as [r|e] eqn:Er;
    simpl; [|done].
  intros [= <-]. by exists spec, r.
Qed.

Lemma signature_loop_spec specs (acc : spec_dicts) agents d :
  signature_loop result_type specs acc agents = Ok d →
  (∀ a, a ∉ agents →
     obs_specs d !! a = obs_specs acc !! a ∧
     act_specs d !! a = act_specs acc !! a ∧
     reward_specs d !! a = reward_specs acc !! a ∧
     step_discount_specs d !! a = step_discount_specs acc !! a ∧
     extras_spec d !! a = extras_spec acc !! a) ∧
  (∀ a, a ∈ agents → ∃ spec r, specs !! a = Some spec ∧
     _broadcast_specs result_type [rewards spec; discounts spec] = Ok r ∧
     agent_entries d a spec r).
Proof.
  revert acc. induction agents as [|agent agents IH]; intros acc; simpl.
  - intros [= <-]. split; [done|]. intros a Ha. by apply elem_of_nil in Ha.
  - destruct (signature_agent result_type specs acc agent) as [acc1|e] eqn:E1; simpl; [|done].
    intros Hloop. destruct (IH _ Hloop) as [Hout Hin].
    apply signature_agent_inv in E1 as (spec & r & Hspec & Hr & ->).
    split.
    + intros a Ha. apply not_elem_of_cons in Ha as [Hne Ha].
      destruct (Hout a Ha) as (-> & -> & -> & -> & ->). simpl.
      by rewrite !lookup_insert_ne.
    + intros a Ha. destruct (decide (a ∈ agents)) as [Hin'|Hnin]; [by apply Hin|].
      apply elem_of_cons in Ha as [->|Ha]; [|done].
      exists spec, r. split; [done|]. split; [done|].
      destruct (Hout agent Hnin) as (Ho & Ha & Hr' & Hd & He). unfold agent_entries.
      rewrite Ho, Ha, Hr', Hd, He. simpl. by simplify_map_eq.
Qed.

Lemma signature_loop_returns specs (acc : spec_dicts) agents :
  (∀ a, a ∈ agents → ∃ spec r, specs !! a = Some spec ∧
     _broadcast_specs result_type [rewards spec; discounts spec] = Ok r) →
  ∃ d, signature_loop result_type specs acc agents = Ok d.
Proof.
  revert acc. induction agents as [|agent agents IH]; intros acc Hall; simpl; [by eexists|].
  destruct (Hall agent) as (spec & r & Hspec & Hr); [by left|].
  unfold signature_agent. rewrite Hspec. simpl in Hr |- *. rewrite Hr. simpl.
  apply IH. intros a Ha. apply Hall. by right.
Qed.

Lemma _broadcast_specs_scalar_r (a b : Array) :
  shape b = [] →
  _broadcast_specs result_type [a; b]
    = Ok (mk_Array (shape a) (result_type [dtype a; dtype b]) None).
Proof.
  intros Hb. unfold _broadcast_specs, np_broadcast_shape. simpl. rewrite Hb. simpl.
  rewrite broadcast_aligned_nil_r. simpl. by rewrite reverse_involutive.
Qed.


(** X12. When [signature] gets to its list [transition_spec], the list is
    the observation, action, reward and discount dictionaries and the
    observation dictionary again, followed, unless there is no agent, by an
    extras dictionary that maps every agent to an empty dictionary whatever
    the argument [extras_spec]; the dictionaries have the agent ids as keys
    and hold, for each agent, its observation, action and discount specs
    and [_broadcast_specs] of its reward and discount specs. *)
Theorem signature_transition_spec (environment_spec : @MAEnvironmentSpec D O A)
    (extras_spec_arg : gmap string E) (ts : list (@component D O A E)) :
  transition_spec result_type environment_spec extras_spec_arg = Ok ts →
  ∃ obs act rew disc,
    ts = [ObsSpecs obs; ActSpecs act; ArraySpecs rew; ArraySpecs disc; ObsSpecs obs]
         ++ match get_agent_ids environment_spec with
            | [] => []
            | _ => [ExtrasSpecs (gset_to_gmap ∅ (list_to_set (get_agent_ids environment_spec)))]
            end ∧
    dom obs = list_to_set (get_agent_ids environment_spec) ∧
    dom act = list_to_set (get_agent_ids environment_spec) ∧
    dom rew = list_to_set (get_agent_ids environment_spec) ∧
    dom disc = list_to_set (get_agent_ids environment_spec) ∧
    ∀ a, a ∈ get_agent_ids environment_spec →
      ∃ spec r, get_agent_specs environment_spec !! a = Some spec ∧
        _broadcast_specs result_type [rewards spec; discounts spec] = Ok r ∧
        obs !! a = Some (observations spec) ∧ act !! a = Some (actions spec) ∧
        rew !! a = Some r ∧ disc !! a = Some (discounts spec).
Proof.
  unfold transition_spec.
  destruct (signature_loop result_type (get_agent_specs environment_spec)
              (mk_spec_dicts ∅ ∅ ∅ ∅ ∅) (get_agent_ids environment_spec)) as [d|e] eqn:El;
    simpl; [|done].
  intros [= <-]. destruct (signature_loop_spec _ _ _ _ El) as [Hout Hin].
  assert (Hdom : ∀ (V : Type) (m : gmap string V),
            (∀ a, a ∉ get_agent_ids environment_spec → m !! a = None) →
            (∀ a, a ∈ get_agent_ids environment_spec → is_Some (m !! a)) →
            dom m = list_to_set (get_agent_ids environment_spec)).
  { intros V m Hn Hs. apply set_eq. intros a. rewrite elem_of_dom, elem_of_list_to_set.
    split; [|by apply Hs]. intros Hsome.
    destruct (decide (a ∈ get_agent_ids environment_spec)) as [|Hnin]; [done|].
    rewrite (Hn a Hnin) in Hsome. by destruct Hsome. }
  assert (Hext : extras_spec d
            = gset_to_gmap ∅ (list_to_set (get_agent_ids environment_spec))).
  { apply map_eq. intros a. rewrite lookup_gset_to_gmap.
    destruct (decide (a ∈ get_agent_ids environment_spec)) as [Ha|Ha].
    - destruct (Hin a Ha) as (spec & r & _ & _ & _ & _ & _ & _ & ->).
      rewrite option_guard_True; [done|]. by apply elem_of_list_to_set.
    - destruct (Hout a Ha) as (_ & _ & _ & _ & ->). simpl. rewrite lookup_empty.
      rewrite option_guard_False; [done|]. by rewrite elem_of_list_to_set. }
  exists (obs_specs d), (act_specs d), (reward_specs d), (step_discount_specs d).
  split; [|split; [|split; [|split; [|split]]]].
  - rewrite Hext. destruct (get_agent_ids environment_spec) as [|a0 ids] eqn:Eids; [done|].
    destruct (is_empty _) eqn:Eempty; [|done].
    exfalso. unfold is_empty in Eempty. apply bool_decide_eq_true in Eempty.
    rewrite dom_gset_to_gmap in Eempty.
    assert (Hl : a0 ∈ (list_to_set (a0 :: ids) : gset string)).
    { apply elem_of_list_to_set. by left. }
    rewrite Eempty in Hl. by apply not_elem_of_empty in Hl.
  - apply Hdom.
    + intros a Ha. by destruct (Hout a Ha) as (-> & _).
    + intros a Ha. destruct (Hin a Ha) as (spec & r & _ & _ & -> & _). by eexists.
  - apply Hdom.
    + intros a Ha. by destruct (Hout a Ha) as (_ & -> & _).
    + intros a Ha. destruct (Hin a Ha) as (spec & r & _ & _ & _ & -> & _). by eexists.
  - apply Hdom.
    + intros a Ha. by destruct (Hout a Ha) as (_ & _ & -> & _).
    + intros a Ha. destruct (Hin a Ha) as (spec & r & _ & _ & _ & _ & -> & _). by eexists.
  - apply Hdom.
    + intros a Ha. by destruct (Hout a Ha) as (_ & _ & _ & -> & _).
    + intros a Ha. destruct (Hin a Ha) as (spec & r & _ & _ & _ & _ & _ & -> & _). by eexists.
  - intros a Ha. destruct (Hin a Ha) as (spec & r & Hs & Hr & Ho & Hac & Hre & Hd & _).
    by exists spec, r.
Qed.


(** X14. With scalar discount specs, the reward spec of every agent in the
    signature has the shape of the environment's reward spec. *)
Theorem signature_scalar_discounts (environment_spec : @MAEnvironmentSpec D O A)
    (extras_spec_arg : gmap string E) :
  (∀ a, a ∈ get_agent_ids environment_spec →
     ∃ spec, get_agent_specs environment_spec !! a = Some spec ∧ shape (discounts spec) = []) →
  ∃ ts rew, transition_spec result_type environment_spec extras_spec_arg = Ok ts ∧
    ts !! 2 = Some (ArraySpecs rew) ∧
    ∀ a spec, a ∈ get_agent_ids environment_spec →
      get_agent_specs environment_spec !! a = Some spec →
      rew !! a = Some (mk_Array (shape (rewards spec))
                         (result_type [dtype (rewards spec); dtype (discounts spec)]) None).
Proof.
  intros Hall.
  destruct (signature_loop_returns (get_agent_specs environment_spec)
              (mk_spec_dicts ∅ ∅ ∅ ∅ ∅) (get_agent_ids environment_spec)) as [d Hd].
  { intros a Ha. destruct (Hall a Ha) as (spec & Hs & Hsh). exists spec.
    eexists. split; [done|]. by apply _broadcast_specs_scalar_r. }
  destruct (signature_loop_spec _ _ _ _ Hd) as [_ Hin].
  eexists _, (reward_specs d). split.
  { unfold transition_spec. rewrite Hd. reflexivity. }
  split; [by destruct (is_empty (extras_spec d))|].
  intros a spec Ha Hs. destruct (Hin a Ha) as (spec' & r & Hs' & Hr & _ & _ & -> & _).
  rewrite Hs in Hs'. injection Hs' as <-.
  destruct (Hall a Ha) as (spec'' & Hs'' & Hsh). rewrite Hs in Hs''. injection Hs'' as <-.
  rewrite (_broadcast_specs_scalar_r (rewards spec) (discounts spec) Hsh) in Hr.
  by injection Hr as <-.
Qed.

Lemma transition_spec_returns (environment_spec : @MAEnvironmentSpec D O A)
    (extras_spec_arg : gmap string E) :
  (∀ a, a ∈ get_agent_ids environment_spec → ∃ spec r,
     get_agent_specs environment_spec !! a = Some spec ∧
     _broadcast_specs result_type [rewards spec; discounts spec] = Ok r) →
  ∃ ts : list (@component D O A E),
    transition_spec result_type environment_spec extras_spec_arg = Ok ts.
Proof.
  intros Hall. unfold transition_spec.
  destruct (signature_loop_returns (get_agent_specs environment_spec)
              (mk_spec_dicts ∅ ∅ ∅ ∅ ∅) (get_agent_ids environment_spec) Hall) as [d Hd].
  rewrite Hd. simpl. by eexists.
Qed.

End signature_dtypes.

(** Shapes (3, 1) and (4,): the result has the shape (3, 4). *)
Lemma broadcast_specs_result_witness :
  _broadcast_specs signature_examples.result_type
    [mk_Array [3; 1] float32 None; mk_Array [4] float64 None]
    = Ok (mk_Array [3; 4] float64 None) ∧
  np_broadcast_shape [[3; 1]; [3; 4]] = Ok [3; 4] ∧
  np_broadcast_shape [[4]; [3; 4]] = Ok [3; 4].
Proof.
  assert (Hrun : _broadcast_specs signature_examples.result_type
                   [mk_Array [3; 1] float32 None; mk_Array [4] float64 None]
                 = Ok (mk_Array [3; 4] float64 None)) by reflexivity.
  split; [exact Hrun|].
  destruct (broadcast_specs_result _ _ _ Hrun) as (Hfit & _ & _).
  split.
  - apply (Hfit (mk_Array [3; 1] float32 None)). by left.
  - apply (Hfit (mk_Array [4] float64 None)). right. by left.
Defined.

(** Rewards of the shape (2, 3) and a scalar discount. *)
Lemma broadcast_specs_scalar_witness :
  _broadcast_specs signature_examples.result_type
    [mk_Array [2; 3] float32 (Some "reward"%string); mk_Array [] float64 None]
    = Ok (mk_Array [2; 3] float64 None) ∧
  _broadcast_specs signature_examples.result_type
    [mk_Array [] float64 None; mk_Array [2; 3] float32 (Some "reward"%string)]
    = Ok (mk_Array [2; 3] float64 None).
Proof.
  exact (broadcast_specs_scalar signature_examples.result_type
           (mk_Array [2; 3] float32 (Some "reward"%string)) (mk_Array [] float64 None)
           eq_refl).
Defined.

Lemma signature_examples_agents a :
  a ∈ get_agent_ids signature_examples.environment_spec →
  a = "agent_0"%string ∨ a = "agent_1"%string.
Proof.
  intros Ha. apply elem_of_cons in Ha as [->|Ha]; [by left|].
  apply elem_of_cons in Ha as [->|Ha]; [by right|]. by apply elem_of_nil in Ha.
Qed.

Lemma signature_examples_returns :
  ∃ ts : list (@component np.dtype string string () ),
    transition_spec signature_examples.result_type signature_examples.environment_spec ∅
      = Ok ts.
Proof.
  apply transition_spec_returns. intros a Ha.
  destruct (signature_examples_agents a Ha) as [-> | ->]; by eexists _, _.
Qed.

(** Two agents, of reward shapes () and (2,). *)
Lemma signature_transition_spec_witness :
  ∃ ts obs act rew disc,
    transition_spec signature_examples.result_type signature_examples.environment_spec
      (∅ : gmap string ()) = Ok ts ∧
    ts = [ObsSpecs obs; ActSpecs act; ArraySpecs rew; ArraySpecs disc; ObsSpecs obs;
          ExtrasSpecs (gset_to_gmap ∅ (list_to_set ["agent_0"; "agent_1"]%string))] ∧
    dom rew = list_to_set ["agent_0"; "agent_1"]%string.
Proof.
  destruct signature_examples_returns as [ts Hts].
  destruct (signature_transition_spec _ _ _ _ Hts)
    as (obs & act & rew & disc & Heq & _ & _ & Hd & _).
  by exists ts, obs, act, rew, disc.
Defined.

(** Two agents with scalar discounts: the reward spec of agent_1 has the
    shape (2,) of its rewards. *)
Lemma signature_scalar_discounts_witness :
  ∃ ts rew,
    transition_spec signature_examples.result_type signature_examples.environment_spec
      (∅ : gmap string ()) = Ok ts ∧
    ts !! 2%nat = Some (ArraySpecs rew) ∧
    rew !! "agent_1"%string = Some (mk_Array [2] float32 None).
Proof.
  destruct (signature_scalar_discounts signature_examples.result_type
              signature_examples.environment_spec (∅ : gmap string ()))
    as (ts & rew & Hts & H2 & Hrew).
  { intros a Ha. destruct (signature_examples_agents a Ha) as [-> | ->]; by eexists. }
  exists ts, rew. split; [exact Hts|]. split; [exact H2|].
  apply (Hrew "agent_1"%string (signature_examples.agent_spec [2])).
  - right. by left.
  - reflexivity.
Defined.

End signature_facts.

(** ** The mock parameter server *)

Section mock_server_facts.
Import MockParameterServer.
Local Open Scope Z_scope.

Lemma incr_leaf_dom k group group' :
  incr_leaf k group = Ok group' → dom group' = dom group.
Proof.
  unfold incr_leaf. destruct (group !! k) as [[z|]|] eqn:E; try done.
  intros [= <-]. by apply dom_insert_lookup_L.
Qed.

(** One increment changes the entry of its name only, and adds no entry. *)
Lemma _increment_parameter_frame name p p' :
  _increment_parameter name p = Ok p' →
  dom p' = dom p ∧ ∀ k, k ≠ name → p' !! k = p !! k.
Proof.
  unfold _increment_parameter.
  destruct (String.eqb (split_head "_" name) "key").
  - destruct (p !! name) as [[a| | |]|] eqn:E; try done. intros [= <-]. split.
    + by apply dom_insert_lookup_L.
    + intros k Hk. by rewrite lookup_insert_ne.
  - destruct (String.eqb (split_head "-" name) "networks"); [|by intros [= <-]].
    destruct (p !! name) as [[a|m| |]|] eqn:E; try done.
    destruct (m !! "layer_0"%string) as [layer|]; [|done]. simpl.
    destruct (incr_leaf "weights" layer) as [l1|]; [|done]. simpl.
    destruct (incr_leaf "biases" l1) as [l2|]; [|done]. simpl.
    intros [= <-]. split.
    + by apply dom_insert_lookup_L.
    + intros k Hk. by rewrite lookup_insert_ne.
Qed.

Lemma _increment_parameters_frame names p p' :
  _increment_parameters names p = Ok p' →
  dom p' = dom p ∧ ∀ k, k ∉ names → p' !! k = p !! k.
Proof.
  revert p. induction names as [|name names IH]; intros p; simpl.
  - by intros [= <-].
  - destruct (_increment_parameter name p) as [p1|] eqn:E1; [|done]. simpl.
    intros Hrest. destruct (_increment_parameter_frame _ _ _ E1) as [Hd1 Hf1].
    destruct (IH _ Hrest) as [Hd Hf]. split; [congruence|].
    intros k Hk. apply not_elem_of_cons in Hk as [Hne Hk]. rewrite (Hf k Hk). by apply Hf1.
Qed.

(** A name with the prefix "key" is the name of an array, and one
    increment adds 1 to it. *)
Lemma _increment_parameter_key name p p' :
  String.eqb (split_head "_" name) "key" = true →
  _increment_parameter name p = Ok p' →
  ∃ a, p !! name = Some (PArray a) ∧ p' !! name = Some (PArray (array_incr a)).
Proof.
  unfold _increment_parameter. intros ->.
  destruct (p !! name) as [[a| | |]|] eqn:E; try done. intros [= <-].
  exists a. by rewrite lookup_insert_eq.
Qed.

Lemma _increment_parameters_key names name p p' :
  NoDup names → name ∈ names →
  String.eqb (split_head "_" name) "key" = true →
  _increment_parameters names p = Ok p' →
  ∃ a, p !! name = Some (PArray a) ∧ p' !! name = Some (PArray (array_incr a)).
Proof.
  intros Hnd. revert p. induction Hnd as [|n names Hn Hnd IH]; intros p Hin Hkey; simpl.
  - by apply elem_of_nil in Hin.
  - destruct (_increment_parameter n p) as [p1|] eqn:E1; [|done]. simpl. intros Hrest.
    destruct (decide (name = n)) as [->|Hne].
    + destruct (_increment_parameter_key _ _ _ Hkey E1) as (a & Ha & Ha1).
      exists a. split; [done|].
      destruct (_increment_parameters_frame _ _ _ Hrest) as [_ Hf]. by rewrite (Hf n Hn).
    + apply elem_of_cons in Hin as [?|Hin]; [done|].
      destruct (IH p1 Hin Hkey Hrest) as (a & Ha & Ha').
      destruct (_increment_parameter_frame _ _ _ E1) as [_ Hf1].
      exists a. by rewrite <- (Hf1 name Hne).
Qed.

Lemma lookup_all_missing names p k :
  k ∈ names → p !! k = None → lookup_all names p = Raise KeyError.
Proof.
  induction names as [|n names IH]; intros Hin Hk; [by apply elem_of_nil in Hin|].
  simpl. destruct (decide (k = n)) as [->|Hne].
  - by rewrite Hk.
  - apply elem_of_cons in Hin as [?|Hin]; [done|].
    destruct (p !! n); [|done]. by rewrite IH.
Qed.

(** X15. [get_parameters] touches no set parameter and no parameter it is
    not asked for, adds and removes no entry of the store, and returns a
    dictionary of exactly the names asked for, holding the values the store
    has after the call. *)
Theorem get_parameters_frame names (s s' : t) out :
  get_parameters names s = Ok (out, s') →
  dom (parameters s') = dom (parameters s) ∧
  (∀ k, k ∈ set_parameter_keys s ∨ k ∉ names → parameters s' !! k = parameters s !! k) ∧
  dom out = list_to_set names ∧
  (∀ k, k ∈ names → out !! k = parameters s' !! k) ∧
  set_parameter_keys s' = set_parameter_keys s ∧
  _param_names s' = Some names ∧
  get_parameters_attr s' = Some out.
Proof.
  unfold get_parameters.
  destruct (_increment_parameters _ _) as [p|] eqn:Ei; [|done]. simpl.
  destruct (lookup_all names p) as [o|] eqn:Eo; [|done]. simpl.
  intros [= <- <-]. simpl.
  destruct (_increment_parameters_frame _ _ _ Ei) as [Hd Hf].
  destruct (lookup_all_spec _ _ _ Eo) as [Hin Hout].
  split_and!; try done.
  - intros k Hk. apply Hf. rewrite elem_of_remove_dups, list_elem_of_filter. tauto.
  - apply set_eq. intros k. rewrite elem_of_list_to_set, elem_of_dom. split.
    + intros [v Hv]. destruct (decide (k ∈ names)) as [?|Hn]; [done|].
      rewrite (Hout k Hn) in Hv. done.
    + intros Hk. destruct (Hin k Hk) as [Hs ->]. done.
  - intros k Hk. by destruct (Hin k Hk).
Qed.

(** X16. Every "key_..." array that is asked for and is no set parameter is
    incremented exactly once by [get_parameters], however often its name
    occurs among the names asked for. *)
Theorem get_parameters_increments_once names (s s' : t) out k :
  get_parameters names s = Ok (out, s') →
  k ∈ names → k ∉ set_parameter_keys s →
  String.eqb (split_head "_" k) "key" = true →
  ∃ a, parameters s !! k = Some (PArray a) ∧
       parameters s' !! k = Some (PArray (array_incr a)) ∧
       out !! k = Some (PArray (array_incr a)).
Proof.
  unfold get_parameters.
  destruct (_increment_parameters _ _) as [p|] eqn:Ei; [|done]. simpl.
  destruct (lookup_all names p) as [o|] eqn:Eo; [|done]. simpl.
  intros [= <- <-] Hin Hset Hkey. simpl.
  assert (Hk : k ∈ remove_dups (filter (λ n, n ∉ set_parameter_keys s) names)).
  { rewrite elem_of_remove_dups, list_elem_of_filter. tauto. }
  destruct (_increment_parameters_key _ k _ _ (NoDup_remove_dups _) Hk Hkey Ei)
    as (a & Ha & Ha').
  exists a. split_and!; try done.
  destruct (lookup_all_spec _ _ _ Eo) as [Hl _]. destruct (Hl k Hin) as [_ ->]. done.
Qed.

(** X18. [get_parameters] fails if a name it is asked for is not in the
    store. *)
Theorem get_parameters_missing_name names (s : t) k :
  k ∈ names → parameters s !! k = None →
  ∃ e, get_parameters names s = Raise e.
Proof.
  intros Hin Hk. unfold get_parameters.
  destruct (_increment_parameters _ _) as [p|e] eqn:Ei; simpl; [|by exists e].
  destruct (_increment_parameters_frame _ _ _ Ei) as [Hd _].
  exists KeyError. rewrite (lookup_all_missing names p k); [done|done|].
  apply not_elem_of_dom. rewrite Hd. by apply not_elem_of_dom.
Qed.

(** X19. What [set_parameters] stores under a set parameter is what a later
    [get_parameters] returns for it. *)
Theorem set_then_get_parameters set_params names (s s1 s2 : t) out k v :
  set_parameters set_params s = Ok ((), s1) →
  get_parameters names s1 = Ok (out, s2) →
  k ∈ names → k ∈ set_parameter_keys s →
  set_params !! k = Some v →
  out !! k = Some v ∧ parameters s2 !! k = Some v.
Proof.
  intros [= <-]. unfold get_parameters. simpl.
  destruct (_increment_parameters _ _) as [p|] eqn:Ei; [|done]. simpl.
  destruct (lookup_all names p) as [o|] eqn:Eo; [|done]. simpl.
  intros [= <- <-] Hin Hset Hv. simpl.
  destruct (_increment_parameters_frame _ _ _ Ei) as [_ Hf].
  destruct (lookup_all_spec _ _ _ Eo) as [Hl _]. destruct (Hl k Hin) as [_ ->].
  rewrite Hf.
  - split; by rewrite lookup_union_l'.
  - rewrite elem_of_remove_dups, list_elem_of_filter. tauto.
Qed.

Lemma incr_leaf_inv k group group' :
  incr_leaf k group = Ok group' →
  ∃ z, group !! k = Some (LInt z) ∧ group' = <[k := LInt (z + 1)]> group.
Proof.
  unfold incr_leaf. destruct (group !! k) as [[z|]|] eqn:E; try done.
  intros [= <-]. by exists z.
Qed.

Lemma _increment_parameter_networks name p p' :
  String.eqb (split_head "_" name) "key" = false →
  String.eqb (split_head "-" name) "networks" = true →
  _increment_parameter name p = Ok p' →
  ∃ m layer w b,
    p !! name = Some (PNested m) ∧ m !! "layer_0"%string = Some layer ∧
    layer !! "weights"%string = Some (LInt w) ∧ layer !! "biases"%string = Some (LInt b) ∧
    p' !! name =
      Some (PNested (<["layer_0"%string :=
                        <["biases"%string := LInt (b + 1)]>
                          (<["weights"%string := LInt (w + 1)]> layer)]> m)).
Proof.
  unfold _increment_parameter. intros -> ->.
  destruct (p !! name) as [[a|m| |]|] eqn:E; try done.
  destruct (m !! "layer_0"%string) as [layer|] eqn:El; [|done]. simpl.
  destruct (incr_leaf "weights" layer) as [l1|] eqn:E1; [|done]. simpl.
  destruct (incr_leaf "biases" l1) as [l2|] eqn:E2; [|done]. simpl.
  apply incr_leaf_inv in E1 as (w & Hw & ->). apply incr_leaf_inv in E2 as (b & Hb & ->).
  rewrite lookup_insert_ne in Hb by done.
  intros [= <-]. exists m, layer, w, b. by rewrite lookup_insert_eq.
Qed.

Lemma _increment_parameters_networks names name p p' :
  NoDup names → name ∈ names →
  String.eqb (split_head "_" name) "key" = false →
  String.eqb (split_head "-" name) "networks" = true →
  _increment_parameters names p = Ok p' →
  ∃ m layer w b,
    p !! name = Some (PNested m) ∧ m !! "layer_0"%string = Some layer ∧
    layer !! "weights"%string = Some (LInt w) ∧ layer !! "biases"%string = Some (LInt b) ∧
    p' !! name =
      Some (PNested (<["layer_0"%string :=
                        <["biases"%string := LInt (b + 1)]>
                          (<["weights"%string := LInt (w + 1)]> layer)]> m)).
Proof.
  intros Hnd. revert p. induction Hnd as [|n names Hn Hnd IH]; intros p Hin Hkey Hnet; simpl.
  - by apply elem_of_nil in Hin.
  - destruct (_increment_parameter n p) as [p1|] eqn:E1; [|done]. simpl. intros Hrest.
    destruct (decide (name = n)) as [->|Hne].
    + destruct (_increment_parameter_networks _ _ _ Hkey Hnet E1)
        as (m & layer & w & b & Hm & Hl & Hw & Hb & Hp1).
      exists m, layer, w, b. split_and!; try done.
      destruct (_increment_parameters_frame _ _ _ Hrest) as [_ Hf]. by rewrite (Hf n Hn).
    + apply elem_of_cons in Hin as [?|Hin]; [done|].
      destruct (IH p1 Hin Hkey Hnet Hrest) as (m & layer & w & b & Hm & Hl & Hw & Hb & Hp').
      destruct (_increment_parameter_frame _ _ _ E1) as [_ Hf1].
      exists m, layer, w, b. by rewrite <- (Hf1 name Hne).
Qed.

(** X17. Every "networks-..." parameter that is asked for and is no set
    parameter has the weights and the biases of its layer_0 incremented by
    one by [get_parameters]; its other entries stay. *)
Theorem get_parameters_increments_networks names (s s' : t) out k :
  get_parameters names s = Ok (out, s') →
  k ∈ names → k ∉ set_parameter_keys s →
  String.eqb (split_head "_" k) "key" = false →
  String.eqb (split_head "-" k) "networks" = true →
  ∃ m layer w b,
    parameters s !! k = Some (PNested m) ∧ m !! "layer_0"%string = Some layer ∧
    layer !! "weights"%string = Some (LInt w) ∧ layer !! "biases"%string = Some (LInt b) ∧
    parameters s' !! k =
      Some (PNested (<["layer_0"%string :=
                        <["biases"%string := LInt (b + 1)]>
                          (<["weights"%string := LInt (w + 1)]> layer)]> m)) ∧
    out !! k = parameters s' !! k.
Proof.
  unfold get_parameters.
  destruct (_increment_parameters _ _) as [p|] eqn:Ei; [|done]. simpl.
  destruct (lookup_all names p) as [o|] eqn:Eo; [|done]. simpl.
  intros [= <- <-] Hin Hset Hkey Hnet. simpl.
  assert (Hk : k ∈ remove_dups (filter (λ n, n ∉ set_parameter_keys s) names)).
  { rewrite elem_of_remove_dups, list_elem_of_filter. tauto. }
  destruct (_increment_parameters_networks _ k _ _ (NoDup_remove_dups _) Hk Hkey Hnet Ei)
    as (m & layer & w & b & Hm & Hl & Hw & Hb & Hp).
  exists m, layer, w, b. split_and!; try done.
  destruct (lookup_all_spec _ _ _ Eo) as [Hlk _]. by destruct (Hlk k Hin) as [_ ->].
Qed.

End mock_server_facts.

Section mock_server_witnesses.
Import MockParameterServer.
Local Open Scope Z_scope.

Lemma fixture_get_parameters :
  get_parameters (ParameterClient._get_keys fixture.parameter_client)
    fixture.mock_parameter_server
    = Ok (fixture.parameters_after, fixture.mock_parameter_server_after).
Proof. apply (bool_decide_unpack _). vm_compute. exact I. Qed.

(** The fixture of the test-suite, asked for all its parameters. *)
Lemma get_parameters_frame_witness :
  get_parameters (ParameterClient._get_keys fixture.parameter_client)
    fixture.mock_parameter_server
    = Ok (fixture.parameters_after, fixture.mock_parameter_server_after) ∧
  dom (parameters fixture.mock_parameter_server_after)
    = dom (parameters fixture.mock_parameter_server) ∧
  parameters fixture.mock_parameter_server_after !! "key_0"%string
    = parameters fixture.mock_parameter_server !! "key_0"%string ∧
  dom fixture.parameters_after
    = list_to_set (ParameterClient._get_keys fixture.parameter_client).
Proof.
  split; [exact fixture_get_parameters|].
  destruct (get_parameters_frame _ _ _ _ fixture_get_parameters) as (Hd & Hf & Ho & _).
  split; [exact Hd|]. split; [|exact Ho].
  apply (Hf "key_0"%string). left. by left.
Defined.

(** "key_3" asked for twice is incremented once, from 3 to 4. *)
Lemma get_parameters_increments_once_witness :
  get_parameters server_examples.names3 fixture.mock_parameter_server
    = Ok (server_examples.out3, server_examples.server3) ∧
  ∃ a, parameters fixture.mock_parameter_server !! "key_3"%string = Some (PArray a) ∧
    parameters server_examples.server3 !! "key_3"%string = Some (PArray (array_incr a)) ∧
    server_examples.out3 !! "key_3"%string = Some (PArray (array_incr a)).
Proof.
  assert (Hrun : get_parameters server_examples.names3 fixture.mock_parameter_server
                 = Ok (server_examples.out3, server_examples.server3)).
  { apply (bool_decide_unpack _). vm_compute. exact I. }
  split; [exact Hrun|].
  apply (get_parameters_increments_once _ _ _ _ "key_3"%string Hrun).
  - by left.
  - apply (bool_decide_unpack _). vm_compute. exact I.
  - reflexivity.
Defined.

(** The layer of "networks-network_key_1" goes from 1 and 1 to 2 and 2. *)
Lemma get_parameters_increments_networks_witness :
  get_parameters (ParameterClient._get_keys fixture.parameter_client)
    fixture.mock_parameter_server
    = Ok (fixture.parameters_after, fixture.mock_parameter_server_after) ∧
  ∃ m layer w b,
    parameters fixture.mock_parameter_server !! "networks-network_key_1"%string
      = Some (PNested m) ∧
    m !! "layer_0"%string = Some layer ∧
    layer !! "weights"%string = Some (LInt w) ∧ layer !! "biases"%string = Some (LInt b) ∧
    parameters fixture.mock_parameter_server_after !! "networks-network_key_1"%string =
      Some (PNested (<["layer_0"%string :=
                        <["biases"%string := LInt (b + 1)]>
                          (<["weights"%string := LInt (w + 1)]> layer)]> m)) ∧
    fixture.parameters_after !! "networks-network_key_1"%string
      = parameters fixture.mock_parameter_server_after !! "networks-network_key_1"%string.
Proof.
  split; [exact fixture_get_parameters|].
  apply (get_parameters_increments_networks _ _ _ _ "networks-network_key_1"%string
           fixture_get_parameters).
  - apply (bool_decide_unpack _). vm_compute. exact I.
  - apply (bool_decide_unpack _). vm_compute. exact I.
  - reflexivity.
  - reflexivity.
Defined.

(** The fixture has no parameter "key_9". *)
Lemma get_parameters_missing_name_witness :
  ∃ e, get_parameters ["key_1"; "key_9"]%string fixture.mock_parameter_server = Raise e.
Proof.
  apply (get_parameters_missing_name _ _ "key_9"%string).
  - right. by left.
  - reflexivity.
Defined.

(** The set parameter "key_0" set to 7 is returned as 7. *)
Lemma set_then_get_parameters_witness :
  set_parameters server_examples.set_params7 fixture.mock_parameter_server
    = Ok ((), server_examples.server7) ∧
  get_parameters server_examples.names01 server_examples.server7
    = Ok (server_examples.out01, server_examples.server01) ∧
  server_examples.out01 !! "key_0"%string = Some (fixture.arr int32 7) ∧
  parameters server_examples.server01 !! "key_0"%string = Some (fixture.arr int32 7).
Proof.
  assert (Hrun : get_parameters server_examples.names01 server_examples.server7
                 = Ok (server_examples.out01, server_examples.server01)).
  { apply (bool_decide_unpack _). vm_compute. exact I. }
  split; [reflexivity|]. split; [exact Hrun|].
  apply (set_then_get_parameters server_examples.set_params7 server_examples.names01
           fixture.mock_parameter_server _ _ _ "key_0"%string _ eq_refl Hrun).
  - by left.
  - by left.
  - reflexivity.
Defined.

End mock_server_witnesses.
